(** * OSC datagram decoding and address dispatch

    A shallow embedding of [osc_transport.py] (the keystroke backend, with its
    hand-written OSC decoder) and of the handlers of [osc_to_midi.py] (the MIDI
    backend), followed by the properties of the decoder, the router and the
    action mappers.

    Conventions.  A Python [bytes] object is a [list byte]; a Python [str] is
    the list of its Unicode code points; offsets into a buffer are natural
    numbers (they start at [0] and only grow).  Python's unbounded [int] is
    [Z], a Python [float] is a binary64 value of [spec_float].  A function that
    can raise returns in [result], the sum of the exception and the value.
    Output (what is printed, what is handed to an actuator) is an explicit
    list of events in program order. *)

From Stdlib Require Import ZArith NArith PArith List Bool Lia.
From Stdlib Require Import String Ascii.
From Stdlib Require Import Strings.Byte.
From Stdlib Require Import Floats.SpecFloat.
From Stdlib Require Import QArith Qround.
Import ListNotations.

Local Open Scope nat_scope.

(* ================================================================== *)
(** * The Python primitives the two programs rely on                   *)
(* ================================================================== *)

Module Py.

Definition bytes := list byte.
Definition codepoint := N.
Definition str := list codepoint.

(** The exceptions that the modelled code can meet. *)
Inductive exn : Set :=
| UnicodeDecodeError
| StructError
| ValueError
| IndexError
| TypeError
| OverflowError.

(** [inl e]: the call raised [e]; [inr a]: it returned [a]. *)
Definition result (A : Type) : Type := (exn + A)%type.

Definition ret {A} (a : A) : result A := inr a.
Definition raise {A} (e : exn) : result A := inl e.
Definition bind {A B} (m : result A) (k : A -> result B) : result B :=
  match m with
  | inl e => inl e
  | inr a => k a
  end.

(** A string literal of the source, as a [str]. *)
Definition lit (s : string) : str :=
  map N_of_ascii (list_ascii_of_string s).

Definition chr (a : ascii) : codepoint := N_of_ascii a.

Fixpoint str_eqb (s t : str) : bool :=
  match s, t with
  | [], [] => true
  | c :: s', d :: t' => (c =? d)%N && str_eqb s' t'
  | _, _ => false
  end.

(** [s.startswith(prefix)] *)
Fixpoint startswith (s prefix : str) : bool :=
  match prefix, s with
  | [], _ => true
  | p :: prefix', c :: s' => (c =? p)%N && startswith s' prefix'
  | _ :: _, [] => false
  end.

(** [s.split(sep)] for a one-character separator: never empty. *)
Fixpoint split (s : str) (sep : codepoint) : list str :=
  match s with
  | [] => [[]]
  | c :: s' =>
      if (c =? sep)%N then [] :: split s' sep
      else match split s' sep with
           | [] => [[c]]
           | seg :: segs => (c :: seg) :: segs
           end
  end.

(** A [bytes] literal of ASCII text, [b"..."]. *)
Definition ascii_bytes (s : string) : bytes := list_byte_of_string s.

(** [len(data)] *)
Definition len (data : bytes) : nat := List.length data.

(** [data[a:b]] for [0 <= a]. *)
Definition slice (data : bytes) (a b : nat) : bytes :=
  firstn (b - a) (skipn a data).

Fixpoint index_of (sub : byte) (data : bytes) : option nat :=
  match data with
  | [] => None
  | x :: rest =>
      if Byte.eqb x sub then Some 0
      else option_map S (index_of sub rest)
  end.

(** [data.find(sub, start)] for a one-byte [sub] and [0 <= start];
    [None] stands for Python's [-1]. *)
Definition find (data : bytes) (sub : byte) (start : nat) : option nat :=
  option_map (Nat.add start) (index_of sub (skipn start data)).

(** ** [bytes.decode('utf-8')], strict error handling

    Well-formed sequences only: no overlong forms, no surrogates, nothing
    above U+10FFFF.  Anything else raises [UnicodeDecodeError]. *)

Definition between (lo x hi : N) : bool := ((lo <=? x) && (x <=? hi))%N.
Definition continuation (x : N) : bool := between 128 x 191.

Fixpoint decode_utf8 (bs : bytes) : result str :=
  match bs with
  | [] => ret []
  | b0 :: r0 =>
      let c0 := Byte.to_N b0 in
      if (c0 <? 128)%N then
        bind (decode_utf8 r0) (fun s => ret (c0 :: s))
      else if between 194 c0 223 then
        match r0 with
        | b1 :: r1 =>
            let c1 := Byte.to_N b1 in
            if continuation c1 then
              bind (decode_utf8 r1) (fun s =>
                ret (((c0 - 192) * 64 + (c1 - 128))%N :: s))
            else raise UnicodeDecodeError
        | _ => raise UnicodeDecodeError
        end
      else if between 224 c0 239 then
        match r0 with
        | b1 :: b2 :: r2 =>
            let c1 := Byte.to_N b1 in
            let c2 := Byte.to_N b2 in
            let lo := if (c0 =? 224)%N then 160%N else 128%N in
            let hi := if (c0 =? 237)%N then 159%N else 191%N in
            if between lo c1 hi && continuation c2 then
              bind (decode_utf8 r2) (fun s =>
                ret (((c0 - 224) * 4096 + (c1 - 128) * 64 + (c2 - 128))%N :: s))
            else raise UnicodeDecodeError
        | _ => raise UnicodeDecodeError
        end
      else if between 240 c0 244 then
        match r0 with
        | b1 :: b2 :: b3 :: r3 =>
            let c1 := Byte.to_N b1 in
            let c2 := Byte.to_N b2 in
            let c3 := Byte.to_N b3 in
            let lo := if (c0 =? 240)%N then 144%N else 128%N in
            let hi := if (c0 =? 244)%N then 143%N else 191%N in
            if between lo c1 hi && continuation c2 && continuation c3 then
              bind (decode_utf8 r3) (fun s =>
                ret (((c0 - 240) * 262144 + (c1 - 128) * 4096
                      + (c2 - 128) * 64 + (c3 - 128))%N :: s))
            else raise UnicodeDecodeError
        | _ => raise UnicodeDecodeError
        end
      else raise UnicodeDecodeError
  end.

(** ** Numbers: [struct.unpack], [int(...)], [float(...)], [*] and [>] *)

Fixpoint decimal_digits (acc : Z) (s : str) : option Z :=
  match s with
  | [] => Some acc
  | c :: s' =>
      if between 48 c 57
      then decimal_digits (acc * 10 + Z.of_N (c - 48))%Z s'
      else None
  end.

(** [int(s)] on plain decimal text, an optional sign and ASCII digits.
    Python's [int] accepts more (blanks around the number, [_] between
    digits, the digits of other scripts), so the handlers take the
    conversion as a parameter; this one serves the worked examples. *)
Definition int_of_decimal (s : str) : option Z :=
  match s with
  | [] => None
  | c :: s' =>
      if (c =? 45)%N then
        match s' with
        | [] => None
        | _ => option_map Z.opp (decimal_digits 0%Z s')
        end
      else if (c =? 43)%N then
        match s' with
        | [] => None
        | _ => decimal_digits 0%Z s'
        end
      else decimal_digits 0%Z s
  end.

(** Python floats are IEEE-754 binary64 values. *)
Definition float := spec_float.
Definition prec64 : Z := 53.
Definition emax64 : Z := 1024.

(** The unsigned big-endian value of a byte string. *)
Definition be_uint (bs : bytes) : Z :=
  fold_left (fun acc b => (acc * 256 + Z.of_N (Byte.to_N b))%Z) bs 0%Z.

(** [struct.unpack('>i', b)[0]]: two's complement over 32 bits. *)
Definition unpack_i (b : bytes) : result Z :=
  if List.length b =? 4 then
    let u := be_uint b in
    ret (if (u <? 2 ^ 31)%Z then u else (u - 2 ^ 32)%Z)
  else raise StructError.

(** The binary64 value of an IEEE-754 binary32 bit pattern: sign bit,
    8 bits of biased exponent, 23 bits of fraction.  Every binary32 value
    is a binary64 value, so the widening is exact. *)
Definition float_of_bits32 (w : Z) : float :=
  let s := (2 ^ 31 <=? w)%Z in
  let e := ((w / 2 ^ 23) mod 256)%Z in
  let m := (w mod 2 ^ 23)%Z in
  if (e =? 255)%Z then
    if (m =? 0)%Z then S754_infinity s else S754_nan
  else if (e =? 0)%Z then
    binary_normalize prec64 emax64 (cond_Zopp s m) (-149) s
  else
    binary_normalize prec64 emax64 (cond_Zopp s (m + 2 ^ 23)) (e - 150) s.

(** [struct.unpack('>f', b)[0]] *)
Definition unpack_f (b : bytes) : result float :=
  if List.length b =? 4 then ret (float_of_bits32 (be_uint b))
  else raise StructError.

(** [float(n)] for an [int]: rounded to nearest, [OverflowError] when the
    integer is too large for a float. *)
Definition float_of_int (n : Z) : result float :=
  match binary_normalize prec64 emax64 n 0 false with
  | S754_infinity _ => raise OverflowError
  | f => ret f
  end.

(** [int(x)] for a [float]: truncation toward zero; [ValueError] on a NaN,
    [OverflowError] on an infinity. *)
Definition int_of_float (x : float) : result Z :=
  match x with
  | S754_nan => raise ValueError
  | S754_infinity _ => raise OverflowError
  | S754_zero _ => ret 0%Z
  | S754_finite s m e =>
      ret (cond_Zopp s
             (if (0 <=? e)%Z then (Zpos m * 2 ^ e)%Z
              else (Zpos m / 2 ^ (- e))%Z))
  end.

(** [x * y] on floats. *)
Definition float_mul (x y : float) : float := SFmul prec64 emax64 x y.

(** The literal [0.0]. *)
Definition float_zero : float := S754_zero false.

(** [x > y] on floats (false as soon as one side is a NaN). *)
Definition float_gt (x y : float) : bool := SFltb y x.

(** The exact rational value of a finite float. *)
Definition float_value (x : float) : option Q :=
  match x with
  | S754_zero _ => Some 0%Q
  | S754_finite s m e =>
      Some (if (0 <=? e)%Z then inject_Z (cond_Zopp s (Zpos m * 2 ^ e))
            else Qmake (cond_Zopp s (Zpos m)) (2 ^ (Z.to_pos (- e))))
  | _ => None
  end.

End Py.

Import Py.

Declare Scope py_scope.
Delimit Scope py_scope with py.
Notation "x <- m ;; k" := (bind m (fun x => k))
  (at level 61, m at next level, right associativity) : py_scope.
Notation "' pat <- m ;; k" := (bind m (fun x => match x with pat => k end))
  (at level 61, pat pattern, m at next level, right associativity) : py_scope.

Local Open Scope py_scope.

(** An OSC argument as the handlers see it: the [int] of an ['i'] tag or
    the [float] of an ['f'] tag, the two argument types of the format. *)
Inductive OscArgument : Type :=
| Int32 (i : Z)
| Float32 (f : float).

(** A [dict] with [str] keys, in source order. *)
Fixpoint dict_get {V : Type} (d : list (str * V)) (k : str) : option V :=
  match d with
  | [] => None
  | (k', v) :: d' => if str_eqb k k' then Some v else dict_get d' k
  end.

(** [not s] for a value that is [None] or a [str]. *)
Definition falsy (s : option str) : bool :=
  match s with
  | None | Some [] => true
  | Some (_ :: _) => false
  end.

(** [address.split('/')[-1]]; [split] never returns the empty list. *)
Definition last_segment (address : str) : str :=
  last (split address (chr "/")) [].

(* ================================================================== *)
(** * [osc_transport.py]: the keystroke backend                        *)
(* ================================================================== *)

Module OscTransport.

(** The three AppleScript texts [send_keystroke] can build. *)
Inductive script : Type :=
| KeystrokeCommandDown (key : str)
| KeyCode (code : Z)
| Keystroke (key : str).

(** The lines the program prints. *)
Inductive line : Type :=
| ErrorSendingKeystroke
| ParseError (e : exn)
| UnknownAction (action : str)
| Pressed (action : str)
| Received (address : str) (args : list OscArgument).

(** What the program does to the outside: it runs [osascript] on a
    script, or it prints a line. *)
Inductive event : Type :=
| Osascript (s : script)
| Printed (l : line).

Definition is_actuator_call (ev : event) : bool :=
  match ev with
  | Osascript _ => true
  | Printed _ => false
  end.

(** The number of actuator invocations in a trace. *)
Definition actuator_calls (tr : list event) : nat :=
  List.length (filter is_actuator_call tr).

Definition TRANSPORT_MAP : list (str * (str * bool)) :=
  [ (lit "record",     (lit "r", false));
    (lit "play",       (lit "space", false));
    (lit "stop",       (lit ".", false));
    (lit "rewind",     (lit ",", false));
    (lit "undo",       (lit "z", true));
    (lit "loop",       (lit "c", false));
    (lit "click",      (lit "k", false));
    (lit "marker",     (lit "'", false));
    (lit "prevMarker", (lit ",", true));
    (lit "nextMarker", (lit ".", true));
    (lit "save",       (lit "s", true)) ].

(** [parse_osc_string(data, offset)] *)
Definition parse_osc_string (data : bytes) (offset : nat)
  : result (option str * nat) :=
  match find data x00 offset with
  | None => ret (None, offset)
  | Some end_ =>
      s <- decode_utf8 (slice data offset end_) ;;
      let padding := 4 - ((end_ - offset + 1) mod 4) in
      let padding := if padding =? 4 then 0 else padding in
      ret (Some s, end_ + 1 + padding)
  end.

(** One turn of the loop [for t in type_tag[1:]] on the state
    [(offset, args)]. *)
Definition parse_arg (data : bytes) (st : nat * list OscArgument)
           (t : codepoint) : result (nat * list OscArgument) :=
  let '(offset, args) := st in
  if (t =? chr "i")%N then
    if offset + 4 <=? len data then
      val <- unpack_i (slice data offset (offset + 4)) ;;
      ret (offset + 4, args ++ [Int32 val])
    else ret st
  else if (t =? chr "f")%N then
    if offset + 4 <=? len data then
      val <- unpack_f (slice data offset (offset + 4)) ;;
      ret (offset + 4, args ++ [Float32 val])
    else ret st
  else ret st.

Fixpoint parse_args (data : bytes) (tags : str)
         (st : nat * list OscArgument) : result (nat * list OscArgument) :=
  match tags with
  | [] => ret st
  | t :: tags' => st' <- parse_arg data st t ;; parse_args data tags' st'
  end.

(** The body of the [try] of [parse_osc_message].  [None] is the pair
    [(None, None)], [Some (address, args)] the pair [(address, args)]. *)
Definition parse_osc_message_body (data : bytes)
  : result (option (str * list OscArgument)) :=
  '(address, offset) <- parse_osc_string data 0 ;;
  match address with
  | None => ret None
  | Some address =>
      if falsy (Some address) || negb (startswith address (lit "/"))
      then ret None
      else if len data <=? offset then ret (Some (address, []))
      else
        '(type_tag, offset) <- parse_osc_string data offset ;;
        match type_tag with
        | None => ret (Some (address, []))
        | Some type_tag =>
            if falsy (Some type_tag) || negb (startswith type_tag (lit ","))
            then ret (Some (address, []))
            else
              '(_, args) <- parse_args data (tl type_tag) (offset, []) ;;
              ret (Some (address, args))
        end
  end.

(** [parse_osc_message(data)]: what it prints and what it returns.
    [except Exception] catches whatever the body raises. *)
Definition parse_osc_message (data : bytes)
  : list event * option (str * list OscArgument) :=
  match parse_osc_message_body data with
  | inr r => ([], r)
  | inl e => ([Printed (ParseError e)], None)
  end.

(** [value > 0] for an [int] or a [float]. *)
Definition greater_than_zero (value : OscArgument) : bool :=
  match value with
  | Int32 i => (0 <? i)%Z
  | Float32 f => float_gt f float_zero
  end.

Section Actuator.

(** Whether [subprocess.run(['osascript', '-e', script], ...)] comes
    back normally ([true]) or raises, a timeout for instance. *)
Variable run_ok : script -> bool.

(** [send_keystroke(key, with_command)]: its events and its return
    value. *)
Definition send_keystroke (key : str) (with_command : bool)
  : list event * bool :=
  let script :=
    if with_command then KeystrokeCommandDown key
    else if str_eqb key (lit "space") then KeyCode 49
    else Keystroke key in
  if run_ok script then ([Osascript script], true)
  else ([Osascript script; Printed ErrorSendingKeystroke], false).

(** [handle_transport(action, value)] *)
Definition handle_transport (action : str) (value : OscArgument)
  : list event :=
  match dict_get TRANSPORT_MAP action with
  | None => [Printed (UnknownAction action)]
  | Some (key, with_cmd) =>
      if greater_than_zero value then
        Printed (Pressed action) :: fst (send_keystroke key with_cmd)
      else []
  end.

(** The body of [if address:] in [main], for a decoded message. *)
Definition dispatch (address : str) (args : list OscArgument)
  : list event :=
  if startswith address (lit "/transport/") then
    let action := last_segment address in
    let value := match args with
                 | v :: _ => v
                 | [] => Int32 127
                 end in
    handle_transport action value
  else [Printed (Received address args)].

(** One turn of [while True] in [main], on the datagram received. *)
Definition main_step (data : bytes) : list event :=
  let '(printed, parsed) := parse_osc_message data in
  printed ++
  match parsed with
  | Some (address, args) =>
      if falsy (Some address) then [] else dispatch address args
  | None => []
  end.

End Actuator.

End OscTransport.

(* ================================================================== *)
(** * [osc_to_midi.py]: the MIDI backend                               *)
(* ================================================================== *)

Module OscToMidi.

(** The lines the handlers print. *)
Inductive line : Type :=
| CCLine (channel cc value : Z)
| TransportLine (action : str) (value : Z)
| SliderLine (slider_id value : Z)
| SliderError (e : exn).

(** [midi_out.send(msg)] hands a control-change message to the MIDI
    output: the trace records the channel, the controller and the value of
    the message that was sent. *)
Inductive event : Type :=
| Send (channel control value : Z)
| Printed (l : line).

Definition is_send (ev : event) : bool :=
  match ev with
  | Send _ _ _ => true
  | Printed _ => false
  end.

(** The number of control-change sends in a trace. *)
Definition sends (tr : list event) : nat :=
  List.length (filter is_send tr).

(** What a handler call leaves behind: its events, and the exception that
    escaped from it, if one did. *)
Record outcome : Type := Outcome {
  trace : list event;
  raised : option exn
}.

(** A control-change message of the MIDI library: channel, controller
    and value. *)
Definition message : Type := (Z * Z * Z)%type.

(** The range of a MIDI channel, [0..15]. *)
Definition channel_ok (channel : Z) : bool :=
  (0 <=? channel)%Z && (channel <=? 15)%Z.

(** The range of a MIDI data byte, [0..127]. *)
Definition data_byte (x : Z) : bool :=
  (0 <=? x)%Z && (x <=? 127)%Z.

(** [mido.Message('control_change', channel=..., control=..., value=...)]
    on integers: the constructor of the library checks what it is given
    and raises [ValueError] for a channel outside [0..15] and for a
    controller or a value outside [0..127]. *)
Definition control_change (channel control value : Z) : result message :=
  if channel_ok channel && data_byte control && data_byte value
  then ret (channel, control, value)
  else raise ValueError.

(** [midi_out.send(msg)] *)
Definition midi_out_send (msg : message) : event :=
  let '(channel, control, value) := msg in Send channel control value.

(** [int(x)] on an argument. *)
Definition int_of_arg (x : OscArgument) : result Z :=
  match x with
  | Int32 i => ret i
  | Float32 f => int_of_float f
  end.

(** [float(x)] on an argument. *)
Definition float_of_arg (x : OscArgument) : result float :=
  match x with
  | Int32 i => float_of_int i
  | Float32 f => ret f
  end.

(** The [int] literal [127] as the right operand of a float [*]. *)
Definition float_127 : float := binary_normalize prec64 emax64 127 0 false.

Definition transport_cc : list (str * Z) :=
  [ (lit "record", 116%Z);
    (lit "play", 117%Z);
    (lit "stop", 118%Z);
    (lit "rewind", 119%Z);
    (lit "undo", 120%Z);
    (lit "loop", 121%Z);
    (lit "click", 122%Z);
    (lit "marker", 123%Z);
    (lit "prevMarker", 124%Z);
    (lit "nextMarker", 125%Z);
    (lit "save", 126%Z) ].

Section Bridge.

(** The built-in [int(s)] on a [str]: the integer the text denotes, or
    [ValueError]. *)
Variable int_of_str : str -> option Z.

(** Whether the global [midi_out] holds an open output ([true]) or is
    still [None] ([false]). *)
Variable midi_out : bool.

(** [handle_cc(address, *args)] *)
Definition handle_cc (address : str) (args : list OscArgument) : outcome :=
  match args with
  | a0 :: a1 :: a2 :: _ =>
      if midi_out then
        match (c <- int_of_arg a0 ;;
               cc <- int_of_arg a1 ;;
               value <- int_of_arg a2 ;;
               msg <- control_change (c - 1) cc value ;;
               ret (msg, (c - 1)%Z, cc, value)) with
        | inr (msg, channel, cc, value) =>
            Outcome [midi_out_send msg;
                     Printed (CCLine (channel + 1)%Z cc value)] None
        | inl e => Outcome [] (Some e)
        end
      else Outcome [] None
  | _ => Outcome [] None
  end.

(** [handle_transport(address, *args)] *)
Definition handle_transport (address : str) (args : list OscArgument)
  : outcome :=
  match args with
  | [] => Outcome [] None
  | a0 :: _ =>
      if negb midi_out then Outcome [] None
      else
        let action := last_segment address in
        match int_of_arg a0 with
        | inl e => Outcome [] (Some e)
        | inr value =>
            match dict_get transport_cc action with
            | Some cc =>
                match control_change 0 cc value with
                | inl e => Outcome [] (Some e)
                | inr msg =>
                    Outcome [midi_out_send msg;
                             Printed (TransportLine action value)] None
                end
            | None => Outcome [] None
            end
        end
  end.

(** The body of the [try] of [handle_slider], up to the two values the
    message is built from. *)
Definition slider_values (address : str) (a0 : OscArgument)
  : result (Z * Z) :=
  slider_id <- match int_of_str (last_segment address) with
               | Some n => ret n
               | None => raise ValueError
               end ;;
  x <- float_of_arg a0 ;;
  value <- int_of_float (float_mul x float_127) ;;
  ret (slider_id, value).

(** The whole body of the [try]: the events it leaves when it runs to
    its end, or the exception that ends it; an exception can only come
    before the message is sent. *)
Definition slider_try (address : str) (a0 : OscArgument)
  : result (list event) :=
  '(slider_id, value) <- slider_values address a0 ;;
  msg <- control_change 0 slider_id value ;;
  ret [midi_out_send msg; Printed (SliderLine slider_id value)].

(** [handle_slider(address, *args)] *)
Definition handle_slider (address : str) (args : list OscArgument)
  : outcome :=
  match args with
  | [] => Outcome [] None
  | a0 :: _ =>
      if negb midi_out then Outcome [] None
      else
        match slider_try address a0 with
        | inr tr => Outcome tr None
        | inl ValueError => Outcome [Printed (SliderError ValueError)] None
        | inl IndexError => Outcome [Printed (SliderError IndexError)] None
        | inl e => Outcome [] (Some e)
        end
  end.

End Bridge.

End OscToMidi.

(* ================================================================== *)
(** * [osc_to_midi.py]: choosing the MIDI output at startup            *)
(* ================================================================== *)

Module OscToMidiSetup.

(** [sub in s] on strings. *)
Fixpoint contains (s sub : str) : bool :=
  startswith s sub
  || match s with
     | [] => false
     | _ :: s' => contains s' sub
     end.

(** The lines printed while the output is chosen. *)
Inductive line : Type :=
| AvailableOutputs (outputs : list str)
| IacNotFound (used : str)
| NoOutputs.

Section Names.

(** [name.upper()] *)
Variable upper : str -> str.

(** The loop [for name in outputs] of [find_iac_driver]. *)
Fixpoint first_iac (outputs : list str) : option str :=
  match outputs with
  | [] => None
  | name :: rest =>
      if contains (upper name) (lit "IAC") then Some name
      else first_iac rest
  end.

(** [find_iac_driver()], on the list that [mido.get_output_names()]
    returns: what it prints and what it returns. *)
Definition find_iac_driver (outputs : list str) : list line * option str :=
  match first_iac outputs with
  | Some name => ([AvailableOutputs outputs], Some name)
  | None =>
      match outputs with
      | first :: _ =>
          ([AvailableOutputs outputs; IacNotFound first], Some first)
      | [] => ([AvailableOutputs outputs], None)
      end
  end.


End Names.

End OscToMidiSetup.

(* ================================================================== *)
(** * The vocabulary of the statements                                 *)
(* ================================================================== *)

Import OscTransport.

(** The padding after a string of [n] bytes and its NUL, in the words of
    the format: [4 - (n + 1) mod 4], with [4] turned into [0]. *)
Definition osc_padding (n : nat) : nat :=
  let p := 4 - (n + 1) mod 4 in
  if p =? 4 then 0 else p.

(** The unsigned value of four bytes, most significant first. *)
Definition be32 (b0 b1 b2 b3 : byte) : Z :=
  (Z.of_N (Byte.to_N b0) * 2 ^ 24 + Z.of_N (Byte.to_N b1) * 2 ^ 16
   + Z.of_N (Byte.to_N b2) * 2 ^ 8 + Z.of_N (Byte.to_N b3))%Z.

(** The two's complement reading of a 32-bit word. *)
Definition signed32 (u : Z) : Z :=
  if (u <? 2 ^ 31)%Z then u else (u - 2 ^ 32)%Z.

(** The number of ['i'] and ['f'] characters of a type tag: the arguments
    it declares. *)
Definition declared (tags : str) : nat :=
  List.length (filter (fun t => (t =? chr "i")%N || (t =? chr "f")%N) tags).

(** [f] is the canonical binary64 number of sign [s] and magnitude
    [P * 2 ^ E]. *)
Definition exact64 (f : float) (s : bool) (P E : Z) : Prop :=
  exists (q : positive) (k : Z),
    f = S754_finite s q (E - k) /\
    (0 <= k)%Z /\
    (Zpos q = P * 2 ^ k)%Z /\
    (2 ^ 52 <= Zpos q < 2 ^ 53)%Z.

(** The floor of [X * 2 ^ E] for an integer [X]. *)
Definition floor_scaled (X E : Z) : Z :=
  if (0 <=? E)%Z then (X * 2 ^ E)%Z else (X / 2 ^ (- E))%Z.

(** ** The wire form of a message, for the statements about decoding *)

(** A byte of plain text: ASCII, and not the NUL. *)
Definition plain_byte (c : byte) : bool :=
  ((0 <? Byte.to_N c) && (Byte.to_N c <? 128))%N.

(** An OSC string on the wire: the text, a NUL, and NULs up to the next
    multiple of four bytes. *)
Definition osc_string (text : bytes) : bytes :=
  text ++ x00 :: repeat x00 (osc_padding (List.length text)).

(** One character of a type tag together with the payload bytes that
    belong to it: four for an ['i'] or an ['f'], none for another
    character. *)
Inductive wire_item : Type :=
| WireInt (b0 b1 b2 b3 : byte)
| WireFloat (b0 b1 b2 b3 : byte)
| WireOther (c : byte).

Definition wire_tag (it : wire_item) : byte :=
  match it with
  | WireInt _ _ _ _ => x69
  | WireFloat _ _ _ _ => x66
  | WireOther c => c
  end.

Definition wire_payload (it : wire_item) : bytes :=
  match it with
  | WireInt b0 b1 b2 b3 => [b0; b1; b2; b3]
  | WireFloat b0 b1 b2 b3 => [b0; b1; b2; b3]
  | WireOther _ => []
  end.

(** The argument an item stands for. *)
Definition wire_argument (it : wire_item) : list OscArgument :=
  match it with
  | WireInt b0 b1 b2 b3 => [Int32 (signed32 (be32 b0 b1 b2 b3))]
  | WireFloat b0 b1 b2 b3 => [Float32 (float_of_bits32 (be32 b0 b1 b2 b3))]
  | WireOther _ => []
  end.

(** [WireOther] carries a plain character that is neither ['i'] nor
    ['f']. *)
Definition wire_item_ok (it : wire_item) : bool :=
  match it with
  | WireOther c =>
      plain_byte c && negb (Byte.eqb c x69) && negb (Byte.eqb c x66)
  | _ => true
  end.

(** A whole message on the wire: the address, the type tag with its
    comma, the payload of the items in order, and whatever follows. *)
Definition osc_message_bytes (address : bytes) (items : list wire_item)
           (trailing : bytes) : bytes :=
  osc_string address
  ++ osc_string (x2c :: map wire_tag items)
  ++ flat_map wire_payload items
  ++ trailing.

(** What every handler of the MIDI backend keeps to, whatever it is
    given: at most one control-change per call, none unless the output is
    open and the message has arguments, every control-change sent within
    the ranges of MIDI, nothing left behind when an exception escapes, and
    nothing at all without an open output or without arguments. *)
Definition handler_discipline (midi_out : bool) (args : list OscArgument)
           (o : OscToMidi.outcome) : Prop :=
  OscToMidi.sends (OscToMidi.trace o) <= 1 /\
  (OscToMidi.sends (OscToMidi.trace o) = 1 ->
   OscToMidi.raised o = None /\ midi_out = true /\ args <> []) /\
  (forall channel control value : Z,
      In (OscToMidi.Send channel control value) (OscToMidi.trace o) ->
      (0 <= channel <= 15)%Z /\ (0 <= control <= 127)%Z /\
      (0 <= value <= 127)%Z) /\
  (OscToMidi.raised o <> None -> OscToMidi.trace o = []) /\
  (midi_out = false \/ args = [] -> o = OscToMidi.Outcome [] None).

(** The test of [find_iac_driver] on one output name. *)
Definition is_iac (upper : str -> str) (name : str) : bool :=
  OscToMidiSetup.contains (upper name) (lit "IAC").

(** [int(x)] in Python, on a rational: the integer part, toward zero. *)
Definition truncate (q : Q) : Z :=
  if Qle_bool 0 q then Qfloor q else Qceiling q.

(* ================================================================== *)
(** * Properties of the decoder                                        *)
(* ================================================================== *)

Section ByteStrings.

Lemma index_of_lt (sub : byte) (data : bytes) (i : nat) :
  index_of sub data = Some i -> i < len data.
Proof.
  revert i; induction data as [|x rest IH]; intros i; simpl.
  - discriminate.
  - destruct (Byte.eqb x sub).
    + intros [= <-]. unfold len; simpl; lia.
    + destruct (index_of sub rest) as [j|]; simpl; [|discriminate].
      intros [= <-]. specialize (IH j eq_refl).
      unfold len in *; simpl; lia.
Qed.

Lemma find_bounds (data : bytes) (sub : byte) (start e : nat) :
  find data sub start = Some e -> start <= e < len data.
Proof.
  unfold find.
  destruct (index_of sub (skipn start data)) as [i|] eqn:E; simpl;
    [|discriminate].
  intros [= <-]. apply index_of_lt in E.
  unfold len in *. rewrite length_skipn in E. lia.
Qed.

Lemma slice_length (data : bytes) (a n : nat) :
  a + n <= len data -> List.length (slice data a (a + n)) = n.
Proof.
  intros H. unfold slice, len in *.
  rewrite length_firstn, length_skipn. lia.
Qed.

Lemma slice_four (data : bytes) (a : nat) :
  a + 4 <= len data ->
  exists b0 b1 b2 b3, slice data a (a + 4) = [b0; b1; b2; b3].
Proof.
  intros H. pose proof (slice_length data a 4 H) as L.
  destruct (slice data a (a + 4)) as [|b0 [|b1 [|b2 [|b3 [|b4 r]]]]];
    simpl in L; try discriminate.
  now exists b0, b1, b2, b3.
Qed.

Lemma be_uint_four (b0 b1 b2 b3 : byte) :
  be_uint [b0; b1; b2; b3] = be32 b0 b1 b2 b3.
Proof. unfold be_uint, be32. cbn [fold_left]. ring. Qed.

End ByteStrings.

(** C4.  Whenever [parse_osc_string] finds the NUL that ends the string
    starting at [offset], the offset it returns is [offset] plus the string
    length, plus one for the NUL, plus the padding [4 - (len + 1) mod 4]
    with [4] normalised to [0]; this number of consumed bytes is a positive
    multiple of four.  (The returned offset is reached unless decoding the
    string bytes raises.) *)
Theorem parse_osc_string_consumes_multiple_of_4 :
  forall (data : bytes) (offset end_ : nat),
    find data x00 offset = Some end_ ->
    exists next : nat,
      parse_osc_string data offset
      = (s <- decode_utf8 (slice data offset end_) ;; ret (Some s, next)) /\
      offset <= end_ /\
      next - offset = (end_ - offset) + 1 + osc_padding (end_ - offset) /\
      0 < next - offset /\
      (next - offset) mod 4 = 0.
Proof.
  intros data offset end_ Hfind.
  pose proof (find_bounds _ _ _ _ Hfind) as [Hle _].
  unfold parse_osc_string. rewrite Hfind.
  eexists. split; [reflexivity|].
  split; [exact Hle|].
  unfold osc_padding.
  set (n := end_ - offset).
  assert (Hm : (n + 1) mod 4 < 4) by (apply Nat.mod_upper_bound; lia).
  pose proof (Nat.div_mod_eq (n + 1) 4) as Hd.
  destruct (4 - (n + 1) mod 4 =? 4) eqn:E.
  - apply Nat.eqb_eq in E.
    assert (Hz : (n + 1) mod 4 = 0) by lia.
    replace (end_ + 1 + 0 - offset) with (n + 1) by lia.
    split; [lia | split; [lia | exact Hz]].
  - apply Nat.eqb_neq in E.
    replace (end_ + 1 + (4 - (n + 1) mod 4) - offset)
      with (n + 1 + (4 - (n + 1) mod 4)) by lia.
    split; [lia | split; [lia |]].
    replace (n + 1 + (4 - (n + 1) mod 4))
      with (0 + (1 + (n + 1) / 4) * 4) by lia.
    now rewrite Nat.Div0.mod_add.
Qed.

Lemma parse_osc_string_consumes_multiple_of_4_witness :
  exists next : nat,
    parse_osc_string (ascii_bytes "/x" ++ [x00; x00]) 0
    = (s <- decode_utf8 (slice (ascii_bytes "/x" ++ [x00; x00]) 0 2) ;;
       ret (Some s, next)) /\
    0 <= 2 /\
    next - 0 = (2 - 0) + 1 + osc_padding (2 - 0) /\
    0 < next - 0 /\
    (next - 0) mod 4 = 0.
Proof.
  apply (parse_osc_string_consumes_multiple_of_4
           (ascii_bytes "/x" ++ [x00; x00]) 0 2).
  reflexivity.
Defined.

Section ArgumentLoop.

Variable data : bytes.

Lemma parse_arg_starved (offset : nat) (args : list OscArgument)
      (t : codepoint) :
  len data < offset + 4 ->
  parse_arg data (offset, args) t = inr (offset, args).
Proof.
  intros H. unfold parse_arg.
  assert (E : (offset + 4 <=? len data) = false) by (apply Nat.leb_gt; lia).
  rewrite E. now destruct (t =? chr "i")%N, (t =? chr "f")%N.
Qed.

Lemma parse_arg_int (offset : nat) (args : list OscArgument) :
  offset + 4 <= len data ->
  exists b0 b1 b2 b3,
    slice data offset (offset + 4) = [b0; b1; b2; b3] /\
    parse_arg data (offset, args) (chr "i")
    = inr (offset + 4, args ++ [Int32 (signed32 (be32 b0 b1 b2 b3))]).
Proof.
  intros H. destruct (slice_four data offset H) as (b0 & b1 & b2 & b3 & E).
  exists b0, b1, b2, b3. split; [exact E|].
  unfold parse_arg. rewrite N.eqb_refl.
  assert (L : (offset + 4 <=? len data) = true) by (apply Nat.leb_le; lia).
  rewrite L, E. unfold unpack_i. cbn [List.length Nat.eqb bind ret].
  now rewrite be_uint_four.
Qed.

Lemma parse_arg_float (offset : nat) (args : list OscArgument) :
  offset + 4 <= len data ->
  exists b0 b1 b2 b3,
    slice data offset (offset + 4) = [b0; b1; b2; b3] /\
    parse_arg data (offset, args) (chr "f")
    = inr (offset + 4,
           args ++ [Float32 (float_of_bits32 (be32 b0 b1 b2 b3))]).
Proof.
  intros H. destruct (slice_four data offset H) as (b0 & b1 & b2 & b3 & E).
  exists b0, b1, b2, b3. split; [exact E|].
  unfold parse_arg. rewrite N.eqb_refl.
  replace (chr "f" =? chr "i")%N with false by reflexivity.
  assert (L : (offset + 4 <=? len data) = true) by (apply Nat.leb_le; lia).
  rewrite L, E. unfold unpack_f. cbn [List.length Nat.eqb bind ret].
  now rewrite be_uint_four.
Qed.

Lemma parse_arg_other (st : nat * list OscArgument) (t : codepoint) :
  t <> chr "i" -> t <> chr "f" -> parse_arg data st t = inr st.
Proof.
  intros Hi Hf. destruct st as [offset args]. unfold parse_arg.
  apply N.eqb_neq in Hi, Hf. now rewrite Hi, Hf.
Qed.

(** A turn of the loop never raises: the slice handed to [struct.unpack]
    is four bytes long whenever the guard lets it through. *)
Lemma parse_arg_returns (st : nat * list OscArgument) (t : codepoint) :
  exists st', parse_arg data st t = inr st'.
Proof.
  destruct st as [offset args].
  destruct (Nat.le_gt_cases (offset + 4) (len data)) as [H|H].
  - destruct (N.eq_dec t (chr "i")) as [->|Hi].
    + destruct (parse_arg_int offset args H) as (? & ? & ? & ? & _ & E).
      eauto.
    + destruct (N.eq_dec t (chr "f")) as [->|Hf].
      * destruct (parse_arg_float offset args H) as (? & ? & ? & ? & _ & E).
        eauto.
      * rewrite parse_arg_other by assumption. eauto.
  - rewrite parse_arg_starved by lia. eauto.
Qed.

Lemma parse_args_starved (tags : str) (offset : nat)
      (args : list OscArgument) :
  len data < offset + 4 ->
  parse_args data tags (offset, args) = inr (offset, args).
Proof.
  intros H. induction tags as [|t tags IH]; cbn [parse_args];
    [reflexivity|].
  rewrite parse_arg_starved by exact H. exact IH.
Qed.

Lemma parse_args_returns (tags : str) :
  forall st, exists st', parse_args data tags st = inr st'.
Proof.
  induction tags as [|t tags IH]; intros st; cbn [parse_args].
  - now exists st.
  - destruct (parse_arg_returns st t) as [st1 ->]. apply IH.
Qed.

Lemma declared_cons (t : codepoint) (tags : str) :
  declared (t :: tags)
  = (if (t =? chr "i")%N || (t =? chr "f")%N then 1 else 0) + declared tags.
Proof.
  unfold declared. cbn [filter].
  now destruct ((t =? chr "i")%N || (t =? chr "f")%N).
Qed.

(** When the tags declare more arguments than the bytes left can supply,
    the loop meets an ['i'] or ['f'] with fewer than four bytes left, and
    ends in the state it had there. *)
Lemma parse_args_runs_dry (tags : str) :
  forall (offset : nat) (args : list OscArgument),
    len data - offset < 4 * declared tags ->
    exists before t after offset' args',
      tags = before ++ t :: after /\
      (t = chr "i" \/ t = chr "f") /\
      parse_args data before (offset, args) = inr (offset', args') /\
      len data < offset' + 4 /\
      parse_args data tags (offset, args) = inr (offset', args').
Proof.
  induction tags as [|t tags IH]; intros offset args Hd.
  - unfold declared in Hd. simpl in Hd. lia.
  - rewrite declared_cons in Hd.
    assert (Hcases :
              (len data < offset + 4 /\ (t = chr "i" \/ t = chr "f")) \/
              exists offset1 args1,
                parse_arg data (offset, args) t = inr (offset1, args1) /\
                len data - offset1 < 4 * declared tags).
    { destruct (N.eq_dec t (chr "i")) as [->|Hi].
      - destruct (Nat.le_gt_cases (offset + 4) (len data)) as [H|H].
        + right.
          destruct (parse_arg_int offset args H) as (? & ? & ? & ? & _ & E).
          rewrite E. do 2 eexists. split; [reflexivity|].
          cbn in Hd. lia.
        + left. split; [lia | now left].
      - destruct (N.eq_dec t (chr "f")) as [->|Hf].
        + destruct (Nat.le_gt_cases (offset + 4) (len data)) as [H|H].
          * right.
            destruct (parse_arg_float offset args H)
              as (? & ? & ? & ? & _ & E).
            rewrite E. do 2 eexists. split; [reflexivity|].
            cbn in Hd. lia.
          * left. split; [lia | now right].
        + right. rewrite parse_arg_other by assumption.
          do 2 eexists. split; [reflexivity|].
          apply N.eqb_neq in Hi, Hf. rewrite Hi, Hf in Hd.
          cbn in Hd. lia. }
    destruct Hcases as [[H Ht] | (offset1 & args1 & Estep & Hd1)].
    + exists [], t, tags, offset, args.
      cbn [parse_args app]. rewrite parse_arg_starved by exact H.
      cbn [bind]. rewrite parse_args_starved by exact H. auto.
    + destruct (IH offset1 args1 Hd1)
        as (before & t' & after & offset' & args' & -> & Ht & Eb & Hl & Et).
      exists (t :: before), t', after, offset', args'.
      cbn [parse_args app]. rewrite Estep. cbn [bind]. auto.
Qed.

Lemma parse_arg_length (offset offset' : nat) (args args' : list OscArgument)
      (t : codepoint) :
  parse_arg data (offset, args) t = inr (offset', args') ->
  List.length args'
  <= List.length args
     + (if (t =? chr "i")%N || (t =? chr "f")%N then 1 else 0).
Proof.
  destruct (Nat.le_gt_cases (offset + 4) (len data)) as [H|H].
  - destruct (N.eq_dec t (chr "i")) as [->|Hi].
    + destruct (parse_arg_int offset args H) as (? & ? & ? & ? & _ & ->).
      intros [= <- <-]. rewrite length_app. cbn. lia.
    + destruct (N.eq_dec t (chr "f")) as [->|Hf].
      * destruct (parse_arg_float offset args H) as (? & ? & ? & ? & _ & ->).
        intros [= <- <-]. rewrite length_app. cbn. lia.
      * rewrite parse_arg_other by assumption. intros [= <- <-]. lia.
  - rewrite parse_arg_starved by lia. intros [= <- <-]. lia.
Qed.

Lemma parse_args_length (tags : str) :
  forall (offset offset' : nat) (args args' : list OscArgument),
    parse_args data tags (offset, args) = inr (offset', args') ->
    List.length args' <= List.length args + declared tags.
Proof.
  induction tags as [|t tags IH]; intros offset offset' args args';
    cbn [parse_args].
  - intros [= <- <-]. lia.
  - destruct (parse_arg data (offset, args) t) as [e|[offset1 args1]] eqn:E;
      cbn [bind]; [discriminate|].
    intros Hrest. apply IH in Hrest. apply parse_arg_length in E.
    rewrite declared_cons. lia.
Qed.

Lemma declared_app (tags1 tags2 : str) :
  declared (tags1 ++ tags2) = declared tags1 + declared tags2.
Proof. unfold declared. now rewrite filter_app, length_app. Qed.

End ArgumentLoop.

Section Decoder.

(** What [parse_osc_message] does once the address is in hand and bytes
    are left after it. *)
Lemma parse_osc_message_after_address (data : bytes) (address : str)
      (offset : nat) :
  parse_osc_string data 0 = inr (Some address, offset) ->
  falsy (Some address) = false ->
  startswith address (lit "/") = true ->
  offset < len data ->
  parse_osc_message_body data
  = ('(type_tag, offset') <- parse_osc_string data offset ;;
     match type_tag with
     | None => ret (Some (address, []))
     | Some type_tag =>
         if falsy (Some type_tag) || negb (startswith type_tag (lit ","))
         then ret (Some (address, []))
         else
           '(_, args) <- parse_args data (tl type_tag) (offset', []) ;;
           ret (Some (address, args))
     end).
Proof.
  intros Ha Hf Hs Hl. unfold parse_osc_message_body.
  rewrite Ha. cbn [bind]. rewrite Hf, Hs. cbn [negb orb].
  assert (E : (len data <=? offset) = false) by (apply Nat.leb_gt; lia).
  now rewrite E.
Qed.

(** A buffer without any NUL byte is rejected, silently. *)
Lemma parse_osc_message_without_nul (data : bytes) :
  find data x00 0 = None -> parse_osc_message data = ([], None).
Proof.
  intros H. unfold parse_osc_message, parse_osc_message_body, parse_osc_string.
  now rewrite H.
Qed.

Lemma find_in_text_without_nul (data : bytes) :
  Forall (fun x => Byte.eqb x x00 = false) data -> find data x00 0 = None.
Proof.
  unfold find. cbn [skipn].
  induction 1 as [|x rest Hx _ IH]; cbn [index_of]; [reflexivity|].
  rewrite Hx. destruct (index_of x00 rest); [discriminate|reflexivity].
Qed.

End Decoder.

(** C8.  Decoding the zero-length buffer and decoding the two bytes ["/x"]
    with no NUL after them both end in the failure value, the pair
    [(None, None)]; nothing is raised (and nothing printed): the decoder is
    a total function whose [except] branch absorbs whatever its body
    raises. *)
Theorem empty_and_unterminated_buffers_are_rejected :
  parse_osc_message [] = ([], None) /\
  parse_osc_message (ascii_bytes "/x") = ([], None).
Proof.
  split; apply parse_osc_message_without_nul, find_in_text_without_nul.
  - constructor.
  - repeat constructor.
Qed.

(** C3, as the code has it.  When a well-formed address is followed by
    bytes among which no NUL is found (a truncated type tag), decoding does
    not fail: it returns the address with an empty argument list, raising
    and printing nothing. *)
Theorem truncated_type_tag_gives_no_arguments :
  forall (data : bytes) (address : str) (offset : nat),
    parse_osc_string data 0 = inr (Some address, offset) ->
    falsy (Some address) = false ->
    startswith address (lit "/") = true ->
    offset < len data ->
    find data x00 offset = None ->
    parse_osc_message data = ([], Some (address, [])).
Proof.
  intros data address offset Ha Hf Hs Hl Hnone.
  unfold parse_osc_message.
  rewrite (parse_osc_message_after_address data address offset Ha Hf Hs Hl).
  unfold parse_osc_string. now rewrite Hnone.
Qed.

Lemma truncated_type_tag_gives_no_arguments_witness :
  parse_osc_message (ascii_bytes "/x" ++ [x00; x00] ++ ascii_bytes ",i")
  = ([], Some (lit "/x", [])).
Proof.
  apply (truncated_type_tag_gives_no_arguments
           (ascii_bytes "/x" ++ [x00; x00] ++ ascii_bytes ",i") (lit "/x") 4);
    try reflexivity.
  vm_compute. lia.
Defined.

(** C3 as stated fails: the address ["/x"], padded, followed by the two
    bytes [",i"] and the end of the buffer, is decoded successfully. *)
Lemma truncated_type_tag_is_not_a_failure :
  let data := ascii_bytes "/x" ++ [x00; x00] ++ ascii_bytes ",i" in
  parse_osc_string data 0 = inr (Some (lit "/x"), 4) /\
  find data x00 4 = None /\
  snd (parse_osc_message data) = Some (lit "/x", []) /\
  snd (parse_osc_message data) <> None.
Proof.
  cbv zeta. repeat split; try reflexivity. discriminate.
Qed.




(** C6.  When the type tag declares more ['i']/['f'] arguments than the
    bytes after it can supply, decoding still succeeds.  The loop reaches an
    ['i'] or ['f'] with fewer than four bytes left; nothing is appended from
    there on, and the message returned holds the address and exactly the
    arguments parsed before that point. *)
Theorem partial_argument_lists_are_accepted :
  forall (data : bytes) (address type_tag : str) (offset1 offset2 : nat),
    parse_osc_string data 0 = inr (Some address, offset1) ->
    falsy (Some address) = false ->
    startswith address (lit "/") = true ->
    offset1 < len data ->
    parse_osc_string data offset1 = inr (Some type_tag, offset2) ->
    startswith type_tag (lit ",") = true ->
    len data - offset2 < 4 * declared (tl type_tag) ->
    exists (before : str) (t : codepoint) (after : str)
           (offset' : nat) (args : list OscArgument),
      tl type_tag = before ++ t :: after /\
      (t = chr "i" \/ t = chr "f") /\
      parse_args data before (offset2, []) = inr (offset', args) /\
      len data < offset' + 4 /\
      List.length args < declared (tl type_tag) /\
      parse_osc_message data = ([], Some (address, args)).
Proof.
  intros data address type_tag offset1 offset2 Ha Hf Hs Hl Ht Hc Hd.
  destruct (parse_args_runs_dry data (tl type_tag) offset2 [] Hd)
    as (before & t & after & offset' & args & Esplit & Hif & Eb & Hdry & Eall).
  exists before, t, after, offset', args.
  repeat (split; [assumption|]).
  split.
  - apply parse_args_length in Eb. rewrite Esplit, declared_app, declared_cons.
    assert (Eif : ((t =? chr "i")%N || (t =? chr "f")%N) = true).
    { destruct Hif as [-> | ->]; reflexivity. }
    rewrite Eif. cbn [List.length] in Eb. lia.
  - unfold parse_osc_message.
    rewrite (parse_osc_message_after_address data address offset1 Ha Hf Hs Hl).
    rewrite Ht. cbn [bind]. rewrite Hc.
    assert (Hne : falsy (Some type_tag) = false).
    { destruct type_tag; [discriminate Hc | reflexivity]. }
    rewrite Hne. cbn [negb orb]. rewrite Eall. reflexivity.
Qed.

Lemma partial_argument_lists_are_accepted_witness :
  exists (before : str) (t : codepoint) (after : str)
         (offset' : nat) (args : list OscArgument),
    tl (lit ",ii") = before ++ t :: after /\
    (t = chr "i" \/ t = chr "f") /\
    parse_args (ascii_bytes "/x" ++ [x00; x00] ++ ascii_bytes ",ii" ++ [x00]
                ++ [x00; x00; x00; x07] ++ [x00; x01])
               before (8, []) = inr (offset', args) /\
    len (ascii_bytes "/x" ++ [x00; x00] ++ ascii_bytes ",ii" ++ [x00]
         ++ [x00; x00; x00; x07] ++ [x00; x01]) < offset' + 4 /\
    List.length args < declared (tl (lit ",ii")) /\
    parse_osc_message
      (ascii_bytes "/x" ++ [x00; x00] ++ ascii_bytes ",ii" ++ [x00]
       ++ [x00; x00; x00; x07] ++ [x00; x01])
    = ([], Some (lit "/x", args)).
Proof.
  apply (partial_argument_lists_are_accepted
           (ascii_bytes "/x" ++ [x00; x00] ++ ascii_bytes ",ii" ++ [x00]
            ++ [x00; x00; x00; x07] ++ [x00; x01])
           (lit "/x") (lit ",ii") 4 8); try reflexivity.
  - vm_compute. lia.
  - vm_compute. lia.
Defined.

(* ================================================================== *)
(** * Properties of the router and of the transport handlers           *)
(* ================================================================== *)

Section Splitting.

Variable sep : codepoint.

Lemma split_not_nil (s : str) : split s sep <> [].
Proof.
  destruct s as [|c s]; cbn [split]; [discriminate|].
  destruct (c =? sep)%N; [discriminate|].
  destruct (split s sep); discriminate.
Qed.

Lemma split_singleton (s seg : str) :
  split s sep = [seg] -> ~ In sep s /\ seg = s.
Proof.
  revert seg; induction s as [|c s IH]; intros seg; cbn [split].
  - intros [= <-]. split; [intros []|reflexivity].
  - destruct (c =? sep)%N eqn:E.
    + intros [= _ H]. now apply split_not_nil in H.
    + apply N.eqb_neq in E.
      pose proof (split_not_nil s) as Hne.
      destruct (split s sep) as [|seg' segs]; [contradiction|].
      intros [= <- ->]. destruct (IH seg' eq_refl) as [Hno ->].
      split; [|reflexivity]. intros [H|H]; [congruence|contradiction].
Qed.

(** The last piece of [s.split(sep)] has no [sep] in it; it is [s] itself
    when [s] has no [sep], and otherwise what follows the last [sep]. *)
Lemma last_split_spec (s : str) :
  ~ In sep (last (split s sep) []) /\
  ((~ In sep s /\ split s sep = [s]) \/
   exists front, s = front ++ sep :: last (split s sep) []).
Proof.
  induction s as [|c s [IHno IH]]; cbn [split].
  - split; [intros []|]. left. split; [intros []|reflexivity].
  - pose proof (split_not_nil s) as Hne.
    destruct (c =? sep)%N eqn:E.
    + apply N.eqb_eq in E. subst c.
      destruct (split s sep) as [|seg segs] eqn:Es; [contradiction|].
      change (last ([] :: seg :: segs) [])
        with (last (seg :: segs) (@nil codepoint)).
      split; [exact IHno|]. right.
      destruct IH as [[_ [= -> ->]] | [front Hf]].
      * now exists [].
      * exists (sep :: front). cbn [app]. now rewrite <- Hf.
    + apply N.eqb_neq in E.
      destruct (split s sep) as [|seg [|seg' segs]] eqn:Es; [contradiction| |].
      * destruct (split_singleton s seg Es) as [Hno ->].
        cbn [last]. split.
        -- intros [H|H]; [congruence|contradiction].
        -- left. split; [|reflexivity].
           intros [H|H]; [congruence|contradiction].
      * change (last ((c :: seg) :: seg' :: segs) [])
          with (last (seg :: seg' :: segs) (@nil codepoint)).
        split; [exact IHno|]. right.
        destruct IH as [[_ [=]] | [front Hf]].
        exists (c :: front). cbn [app]. now rewrite <- Hf.
Qed.

End Splitting.

Section KeystrokeBackend.

Variable run_ok : script -> bool.

Lemma send_keystroke_calls_once (key : str) (with_command : bool) :
  actuator_calls (fst (send_keystroke run_ok key with_command)) = 1.
Proof.
  unfold send_keystroke.
  now destruct (run_ok _).
Qed.

Lemma startswith_app (s prefix : str) :
  startswith s prefix = true -> exists rest, s = prefix ++ rest.
Proof.
  revert s; induction prefix as [|p prefix IH]; intros s; cbn [startswith].
  - now exists s.
  - destruct s as [|c s]; [discriminate|].
    intros H. apply andb_prop in H as [Hc Hs].
    apply N.eqb_eq in Hc. subst c.
    destruct (IH s Hs) as [rest ->]. now exists rest.
Qed.

Lemma handle_transport_calls (action : str) (value : OscArgument)
      (key : str) (with_cmd : bool) :
  dict_get TRANSPORT_MAP action = Some (key, with_cmd) ->
  handle_transport run_ok action value
  = (if greater_than_zero value
     then Printed (Pressed action) :: fst (send_keystroke run_ok key with_cmd)
     else []).
Proof. intros H. unfold handle_transport. now rewrite H. Qed.

End KeystrokeBackend.

(** C1, as the code has it.  The keystroke backend routes every address
    that starts with ["/transport/"] to the transport handler; the action is
    the text after the last ['/'] of the address, which has no ['/'] in it,
    however many segments stand before it; a missing value is [127]. *)
Theorem transport_route_takes_last_segment :
  forall (run_ok : script -> bool) (address : str) (args : list OscArgument),
    startswith address (lit "/transport/") = true ->
    dispatch run_ok address args
    = handle_transport run_ok (last_segment address)
        (match args with
         | v :: _ => v
         | [] => Int32 127
         end) /\
    ~ In (chr "/") (last_segment address) /\
    exists front, address = front ++ chr "/" :: last_segment address.
Proof.
  intros run_ok address args Hs.
  split; [unfold dispatch; now rewrite Hs|].
  unfold last_segment.
  destruct (last_split_spec (chr "/") address) as [Hno [[Habs _] | Hfront]].
  - exfalso. apply Habs.
    destruct (startswith_app _ _ Hs) as [rest ->]. now left.
  - split; assumption.
Qed.

Lemma transport_route_takes_last_segment_witness :
  dispatch (fun _ => true) (lit "/transport/play") [Int32 1]
  = handle_transport (fun _ => true) (last_segment (lit "/transport/play"))
      (Int32 1) /\
  ~ In (chr "/") (last_segment (lit "/transport/play")) /\
  exists front,
    lit "/transport/play"
    = front ++ chr "/" :: last_segment (lit "/transport/play").
Proof.
  apply (transport_route_takes_last_segment
           (fun _ => true) (lit "/transport/play") [Int32 1]).
  reflexivity.
Defined.

(** C1 as stated fails: ["/transport/deep/play"] is routed to the transport
    handler with the action ["play"], and the keystroke for it is sent. *)
Lemma nested_transport_address_is_routed :
  last_segment (lit "/transport/play") = lit "play" /\
  last_segment (lit "/transport/deep/play") = lit "play" /\
  dispatch (fun _ => true) (lit "/transport/deep/play") []
  = [Printed (Pressed (lit "play")); Osascript (KeyCode 49)] /\
  actuator_calls
    (main_step (fun _ => true)
       (ascii_bytes "/transport/deep/play" ++ [x00; x00; x00; x00])) = 1.
Proof. repeat split; reflexivity. Qed.

(** C10.  In the keystroke backend a decoded ["/transport/<action>"]
    message without arguments, whose action is in [TRANSPORT_MAP], is
    handled exactly as the same message with the single value [127]: the
    keystroke of the action is sent, once. *)
Theorem missing_value_defaults_to_127 :
  forall (run_ok : script -> bool) (data : bytes) (address key : str)
         (with_cmd : bool),
    parse_osc_message data = ([], Some (address, [])) ->
    startswith address (lit "/transport/") = true ->
    dict_get TRANSPORT_MAP (last_segment address) = Some (key, with_cmd) ->
    main_step run_ok data = dispatch run_ok address [Int32 127] /\
    main_step run_ok data
    = Printed (Pressed (last_segment address))
      :: fst (send_keystroke run_ok key with_cmd) /\
    actuator_calls (main_step run_ok data) = 1.
Proof.
  intros run_ok data address key with_cmd Hp Hs Hk.
  assert (Hm : main_step run_ok data
               = Printed (Pressed (last_segment address))
                 :: fst (send_keystroke run_ok key with_cmd)).
  { unfold main_step. rewrite Hp. cbn [app].
    destruct (startswith_app _ _ Hs) as [rest ->]. cbn [falsy lit].
    change (N_of_ascii "/" :: _) with (lit "/transport/" ++ rest).
    unfold dispatch. rewrite Hs.
    now rewrite (handle_transport_calls run_ok _ _ key with_cmd Hk). }
  split; [|split].
  - rewrite Hm. unfold dispatch. rewrite Hs.
    now rewrite (handle_transport_calls run_ok _ _ key with_cmd Hk).
  - exact Hm.
  - rewrite Hm. cbn [actuator_calls filter is_actuator_call].
    apply send_keystroke_calls_once.
Qed.

Lemma missing_value_defaults_to_127_witness :
  main_step (fun _ => true) (ascii_bytes "/transport/play" ++ [x00])
  = dispatch (fun _ => true) (lit "/transport/play") [Int32 127] /\
  main_step (fun _ => true) (ascii_bytes "/transport/play" ++ [x00])
  = Printed (Pressed (last_segment (lit "/transport/play")))
    :: fst (send_keystroke (fun _ => true) (lit "space") false) /\
  actuator_calls
    (main_step (fun _ => true) (ascii_bytes "/transport/play" ++ [x00])) = 1.
Proof.
  apply (missing_value_defaults_to_127
           (fun _ => true) (ascii_bytes "/transport/play" ++ [x00])
           (lit "/transport/play") (lit "space") false); reflexivity.
Defined.

Section MidiMessages.

Local Open Scope Z_scope.

Lemma data_byte_spec (x : Z) :
  OscToMidi.data_byte x = true <-> 0 <= x <= 127.
Proof. unfold OscToMidi.data_byte. rewrite andb_true_iff. lia. Qed.

Lemma channel_ok_spec (channel : Z) :
  OscToMidi.channel_ok channel = true <-> 0 <= channel <= 15.
Proof. unfold OscToMidi.channel_ok. rewrite andb_true_iff. lia. Qed.

Lemma control_change_returns (channel control value : Z) (msg : OscToMidi.message) :
  OscToMidi.control_change channel control value = inr msg <->
  msg = (channel, control, value) /\
  0 <= channel <= 15 /\ 0 <= control <= 127 /\ 0 <= value <= 127.
Proof.
  unfold OscToMidi.control_change.
  rewrite <- channel_ok_spec, <- !data_byte_spec.
  destruct (OscToMidi.channel_ok channel), (OscToMidi.data_byte control),
    (OscToMidi.data_byte value); cbn [andb]; unfold ret, raise;
    (split; [intros [= <-]; auto | intros (-> & H1 & H2 & H3)]);
    try discriminate; reflexivity.
Qed.

Lemma control_change_raises (channel control value : Z) (e : exn) :
  OscToMidi.control_change channel control value = inl e <->
  e = ValueError /\
  ~ (0 <= channel <= 15 /\ 0 <= control <= 127 /\ 0 <= value <= 127).
Proof.
  unfold OscToMidi.control_change.
  rewrite <- channel_ok_spec, <- !data_byte_spec.
  destruct (OscToMidi.channel_ok channel), (OscToMidi.data_byte control),
    (OscToMidi.data_byte value); cbn [andb]; unfold ret, raise;
    (split; [intros [= <-] | intros (-> & H)]);
    try discriminate; try reflexivity;
    try (split; [reflexivity|]; intros (H1 & H2 & H3); discriminate).
  exfalso. apply H. auto.
Qed.

Lemma control_change_on_channel_0 (control value : Z) :
  OscToMidi.control_change 0 control value
  = if OscToMidi.data_byte control && OscToMidi.data_byte value
    then inr (0, control, value)
    else inl ValueError.
Proof. reflexivity. Qed.

Lemma transport_cc_is_data_byte (action : str) (cc : Z) :
  dict_get OscToMidi.transport_cc action = Some cc ->
  OscToMidi.data_byte cc = true.
Proof.
  unfold OscToMidi.transport_cc. cbn [dict_get].
  repeat (destruct (str_eqb action _); [intros [= <-]; reflexivity|]).
  discriminate.
Qed.

Lemma midi_handle_transport_outcome (address : str) (a0 : OscArgument)
      (rest : list OscArgument) (cc value : Z) :
  dict_get OscToMidi.transport_cc (last_segment address) = Some cc ->
  OscToMidi.int_of_arg a0 = inr value ->
  OscToMidi.handle_transport true address (a0 :: rest)
  = if OscToMidi.data_byte value
    then OscToMidi.Outcome
           [OscToMidi.Send 0 cc value;
            OscToMidi.Printed
              (OscToMidi.TransportLine (last_segment address) value)]
           None
    else OscToMidi.Outcome [] (Some ValueError).
Proof.
  intros Hcc Hint. unfold OscToMidi.handle_transport. cbn [negb].
  rewrite Hint, Hcc, control_change_on_channel_0.
  rewrite (transport_cc_is_data_byte _ _ Hcc). cbn [andb].
  now destruct (OscToMidi.data_byte value).
Qed.

End MidiMessages.

(** C2, as the code has it.  In the keystroke backend a
    ["/transport/<action>"] value whose action is in the table invokes the
    actuator exactly once when the value is greater than [0] and not at all
    otherwise; for an integer value that is the test [0 < i].  The MIDI
    backend has no such gate: with the output open, a value that converts
    to an [int] within [0..127], the value [0] included, is sent unchanged
    in exactly one control-change on channel [0] with the controller of the
    action.  A value outside [0..127] is refused by the MIDI library: its
    [ValueError] escapes from the handler, and nothing is sent or
    printed. *)
Theorem transport_gating_by_backend :
  forall (run_ok : script -> bool) (address key : str) (with_cmd : bool)
         (a0 : OscArgument) (rest : list OscArgument) (cc value : Z),
    dict_get TRANSPORT_MAP (last_segment address) = Some (key, with_cmd) ->
    dict_get OscToMidi.transport_cc (last_segment address) = Some cc ->
    OscToMidi.int_of_arg a0 = inr value ->
    actuator_calls (handle_transport run_ok (last_segment address) a0)
    = (if greater_than_zero a0 then 1 else 0) /\
    (forall i : Z,
        actuator_calls (handle_transport run_ok (last_segment address) (Int32 i))
        = if (0 <? i)%Z then 1 else 0) /\
    actuator_calls (handle_transport run_ok (last_segment address) (Int32 0))
    = 0 /\
    actuator_calls (handle_transport run_ok (last_segment address) (Int32 127))
    = 1 /\
    OscToMidi.handle_transport true address (a0 :: rest)
    = (if OscToMidi.data_byte value
       then OscToMidi.Outcome
              [OscToMidi.Send 0 cc value;
               OscToMidi.Printed
                 (OscToMidi.TransportLine (last_segment address) value)]
              None
       else OscToMidi.Outcome [] (Some ValueError)) /\
    OscToMidi.sends
      (OscToMidi.trace (OscToMidi.handle_transport true address (a0 :: rest)))
    = (if OscToMidi.data_byte value then 1 else 0) /\
    OscToMidi.sends
      (OscToMidi.trace
         (OscToMidi.handle_transport true address (Int32 0 :: rest)))
    = 1.
Proof.
  intros run_ok address key with_cmd a0 rest cc value Hk Hcc Hint.
  assert (Hcalls : forall v,
             actuator_calls (handle_transport run_ok (last_segment address) v)
             = if greater_than_zero v then 1 else 0).
  { intros v. rewrite (handle_transport_calls run_ok _ v key with_cmd Hk).
    destruct (greater_than_zero v); [|reflexivity].
    cbn [actuator_calls filter is_actuator_call].
    apply send_keystroke_calls_once. }
  pose proof (midi_handle_transport_outcome address a0 rest cc value Hcc Hint)
    as Hmidi.
  split; [apply Hcalls|].
  split; [intros i; apply Hcalls|].
  split; [now rewrite Hcalls|].
  split; [now rewrite Hcalls|].
  split; [exact Hmidi|].
  split.
  - rewrite Hmidi. now destruct (OscToMidi.data_byte value).
  - now rewrite (midi_handle_transport_outcome address (Int32 0) rest cc 0 Hcc).
Qed.

Lemma transport_gating_by_backend_witness :
  actuator_calls
    (handle_transport (fun _ => true) (last_segment (lit "/transport/stop"))
       (Int32 0))
  = (if greater_than_zero (Int32 0) then 1 else 0) /\
  (forall i : Z,
      actuator_calls
        (handle_transport (fun _ => true)
           (last_segment (lit "/transport/stop")) (Int32 i))
      = if (0 <? i)%Z then 1 else 0) /\
  actuator_calls
    (handle_transport (fun _ => true) (last_segment (lit "/transport/stop"))
       (Int32 0)) = 0 /\
  actuator_calls
    (handle_transport (fun _ => true) (last_segment (lit "/transport/stop"))
       (Int32 127)) = 1 /\
  OscToMidi.handle_transport true (lit "/transport/stop") [Int32 0]
  = OscToMidi.Outcome
      [OscToMidi.Send 0 118 0;
       OscToMidi.Printed
         (OscToMidi.TransportLine (last_segment (lit "/transport/stop")) 0)]
      None /\
  OscToMidi.sends
    (OscToMidi.trace
       (OscToMidi.handle_transport true (lit "/transport/stop") [Int32 0]))
  = 1 /\
  OscToMidi.sends
    (OscToMidi.trace
       (OscToMidi.handle_transport true (lit "/transport/stop") [Int32 0]))
  = 1.
Proof.
  apply (transport_gating_by_backend
           (fun _ => true) (lit "/transport/stop") (lit ".") false
           (Int32 0) [] 118 0); reflexivity.
Defined.

(** In the MIDI backend a value beyond the range of a data byte is not
    sent: ["/transport/play"] with the value [200]. *)
Example midi_transport_refuses_200 :
  OscToMidi.handle_transport true (lit "/transport/play") [Int32 200]
  = OscToMidi.Outcome [] (Some ValueError).
Proof. reflexivity. Qed.

(** C2 as stated fails in the MIDI backend: ["/transport/stop"] with the
    value [0] produces one actuator call, a control-change with value [0]. *)
Lemma midi_transport_sends_value_zero :
  OscToMidi.trace
    (OscToMidi.handle_transport true (lit "/transport/stop") [Int32 0])
  = [OscToMidi.Send 0 118 0;
     OscToMidi.Printed (OscToMidi.TransportLine (lit "stop") 0)] /\
  OscToMidi.sends
    (OscToMidi.trace
       (OscToMidi.handle_transport true (lit "/transport/stop") [Int32 0]))
  <> 0.
Proof. split; [reflexivity|discriminate]. Qed.

(* ================================================================== *)
(** * Binary64 arithmetic on values that binary32 can hold             *)
(* ================================================================== *)

Section Binary64.

Local Open Scope Z_scope.

Lemma iter_pos_nat {A : Type} (f : A -> A) (p : positive) :
  forall x, SpecFloat.iter_pos f p x = Nat.iter (Pos.to_nat p) f x.
Proof.
  induction p as [p IH|p IH|]; intros x; cbn [SpecFloat.iter_pos].
  - rewrite !IH, Pos2Nat.inj_xI, <- Nat.iter_add, Nat.iter_succ_r.
    f_equal; lia.
  - rewrite !IH, Pos2Nat.inj_xO, <- Nat.iter_add. f_equal; lia.
  - reflexivity.
Qed.

Lemma shr_1_even (z : Z) :
  shr_1 (Build_shr_record (2 * z) false false) = Build_shr_record z false false.
Proof. now destruct z. Qed.

Lemma iter_shr_1_even (n : nat) :
  forall z,
    Nat.iter n shr_1 (Build_shr_record (z * 2 ^ Z.of_nat n) false false)
    = Build_shr_record z false false.
Proof.
  induction n as [|n IH]; intros z.
  - change (Z.of_nat 0) with 0. now rewrite Z.pow_0_r, Z.mul_1_r.
  - rewrite Nat.iter_succ.
    replace (z * 2 ^ Z.of_nat (S n)) with ((2 * z) * 2 ^ Z.of_nat n).
    + now rewrite IH, shr_1_even.
    + rewrite Nat2Z.inj_succ, Z.pow_succ_r by lia. ring.
Qed.

Lemma Zdigits2_log2 (z : Z) : 0 < z -> Zdigits2 z = Z.log2 z + 1.
Proof.
  destruct z as [|p|p]; try lia. intros _. cbn [Zdigits2].
  destruct p as [p|p|]; cbn [digits2_pos Z.log2]; try reflexivity;
    rewrite Pos2Z.inj_succ; f_equal;
    induction p as [p IH|p IH|]; cbn [digits2_pos Pos.size]; try reflexivity;
    now rewrite !Pos2Z.inj_succ, IH.
Qed.

(** The digits of a number between two consecutive powers of two. *)
Lemma Zdigits2_between (z d : Z) :
  0 < d -> 2 ^ (d - 1) <= z < 2 ^ d -> Zdigits2 z = d.
Proof.
  intros Hd Hz.
  assert (0 < z) by (pose proof (Z.pow_pos_nonneg 2 (d - 1)); lia).
  rewrite Zdigits2_log2 by assumption.
  rewrite (Z.log2_unique z (d - 1)); [lia | lia |].
  now replace (Z.succ (d - 1)) with d by lia.
Qed.

Lemma Zdigits2_bounds (z : Z) :
  0 < z -> 2 ^ (Zdigits2 z - 1) <= z < 2 ^ Zdigits2 z.
Proof.
  intros Hz. rewrite Zdigits2_log2 by assumption.
  replace (Z.log2 z + 1 - 1) with (Z.log2 z) by lia.
  pose proof (Z.log2_spec z Hz) as H.
  now replace (Z.succ (Z.log2 z)) with (Z.log2 z + 1) in H by lia.
Qed.

(** Rounding a mantissa of 53 significant bits followed by [n] zero bits:
    the zero bits are shifted out and nothing is lost. *)
Lemma binary_round_aux_exact (s : bool) (q : positive) (n ex : Z) :
  2 ^ 52 <= Zpos q < 2 ^ 53 ->
  0 <= n ->
  -1074 <= ex + n <= 971 ->
  binary_round_aux prec64 emax64 s (Zpos q * 2 ^ n) ex loc_Exact
  = S754_finite s q (ex + n).
Proof.
  intros Hq Hn He.
  assert (Hd : Zdigits2 (Zpos q * 2 ^ n) = 53 + n).
  { apply Zdigits2_between; [lia|].
    replace (53 + n - 1) with (52 + n) by lia.
    rewrite !Z.pow_add_r by lia.
    pose proof (Z.pow_pos_nonneg 2 n). nia. }
  assert (Hdq : Zdigits2 (Zpos q) = 53) by (apply Zdigits2_between; lia).
  unfold binary_round_aux, shr_fexp, prec64, emax64.
  rewrite Hd.
  replace (fexp 53 1024 (53 + n + ex) - ex) with n
    by (unfold fexp, emin; lia).
  assert (Hshr : shr (shr_record_of_loc (Zpos q * 2 ^ n) loc_Exact) ex n
                 = (Build_shr_record (Zpos q) false false, ex + n)).
  { destruct n as [|p|p]; [| |lia]; cbn [shr shr_record_of_loc].
    - now rewrite Z.pow_0_r, Z.mul_1_r, Z.add_0_r.
    - rewrite iter_pos_nat.
      rewrite <- (positive_nat_Z p) at 1.
      now rewrite iter_shr_1_even. }
  rewrite Hshr. cbn [shr_m loc_of_shr_record round_nearest_even].
  rewrite Hdq.
  replace (fexp 53 1024 (53 + (ex + n)) - (ex + n)) with 0
    by (unfold fexp, emin; lia).
  cbn [shr shr_record_of_loc shr_m].
  replace (ex + n <=? 1024 - 53) with true by (symmetry; apply Z.leb_le; lia).
  reflexivity.
Qed.

Lemma Zpos_iter_xO (p k : positive) :
  Zpos (Pos.iter xO p k) = Zpos p * 2 ^ Zpos k.
Proof.
  rewrite <- Z.shiftl_mul_pow2 by lia. cbn [Z.shiftl].
  apply (Pos.iter_swap_gen _ _ Zpos xO (Z.mul 2)). reflexivity.
Qed.

Lemma binary_round_aux_exact0 (s : bool) (q : positive) (ex : Z) :
  2 ^ 52 <= Zpos q < 2 ^ 53 ->
  -1074 <= ex <= 971 ->
  binary_round_aux prec64 emax64 s (Zpos q) ex loc_Exact = S754_finite s q ex.
Proof.
  intros Hq He.
  pose proof (binary_round_aux_exact s q 0 ex Hq) as H.
  rewrite Z.pow_0_r, Z.mul_1_r, Z.add_0_r in H. apply H; lia.
Qed.

(** Integers of at most 53 bits, scaled by a moderate power of two, are
    normalised without rounding. *)
Lemma binary_round_exact64 (s : bool) (p : positive) (E : Z) :
  Zpos p < 2 ^ 53 ->
  -1000 <= E <= 900 ->
  exact64 (binary_round prec64 emax64 s p E) s (Zpos p) E.
Proof.
  intros Hp HE.
  pose proof (Zdigits2_bounds (Zpos p) eq_refl) as Hb.
  assert (Hdd : Zpos (digits2_pos p) = Zdigits2 (Zpos p)) by reflexivity.
  remember (Zdigits2 (Zpos p)) as d eqn:Hd.
  assert (Hd1 : 1 <= d).
  { subst d. rewrite Zdigits2_log2 by lia.
    pose proof (Z.log2_nonneg (Zpos p)). lia. }
  assert (Hd53 : d <= 53).
  { destruct (Z_le_gt_dec d 53) as [H|H]; [exact H|exfalso].
    assert (2 ^ 53 <= 2 ^ (d - 1)) by (apply Z.pow_le_mono_r; lia). lia. }
  remember (53 - d) as k eqn:Hk.
  assert (Hq : 2 ^ 52 <= Zpos p * 2 ^ k < 2 ^ 53).
  { replace 52 with ((d - 1) + k) by lia.
    replace 53 with (d + k) by lia.
    rewrite !Z.pow_add_r by lia.
    pose proof (Z.pow_pos_nonneg 2 k). nia. }
  assert (Hal : shl_align p E (fexp prec64 emax64 (Zpos (digits2_pos p) + E))
                = (Z.to_pos (Zpos p * 2 ^ k), E - k)).
  { unfold shl_align, fexp, emin, prec64, emax64. rewrite Hdd.
    replace (Z.max (d + E - 53) (3 - 1024 - 53)) with (E - k) by lia.
    destruct (E - k - E) as [|j|j] eqn:Ej.
    - assert (Hk0 : k = 0) by lia. rewrite Hk0.
      now rewrite Z.pow_0_r, Z.mul_1_r, Z.sub_0_r.
    - lia.
    - f_equal. apply Pos2Z.inj. rewrite Zpos_iter_xO.
      rewrite Z2Pos.id by lia. f_equal. f_equal. lia. }
  assert (Hqq : Zpos (Z.to_pos (Zpos p * 2 ^ k)) = Zpos p * 2 ^ k)
    by (apply Z2Pos.id; lia).
  unfold binary_round. rewrite Hal.
  exists (Z.to_pos (Zpos p * 2 ^ k)), k.
  split; [|split; [lia | split; [exact Hqq | now rewrite Hqq]]].
  apply binary_round_aux_exact0; [now rewrite Hqq | lia].
Qed.

Lemma float_mul_exact64 (f1 f2 : float) (s1 s2 : bool) (P1 P2 E1 E2 : Z) :
  exact64 f1 s1 P1 E1 ->
  exact64 f2 s2 P2 E2 ->
  P1 * P2 < 2 ^ 53 ->
  -1000 <= E1 + E2 <= 900 ->
  exact64 (float_mul f1 f2) (xorb s1 s2) (P1 * P2) (E1 + E2).
Proof.
  intros (q1 & k1 & -> & Hk1 & Hq1 & Hb1) (q2 & k2 & -> & Hk2 & Hq2 & Hb2)
         HP HE.
  assert (HP1 : 0 < P1) by (pose proof (Z.pow_pos_nonneg 2 k1); nia).
  assert (HP2 : 0 < P2) by (pose proof (Z.pow_pos_nonneg 2 k2); nia).
  assert (HPpos : 0 < P1 * P2) by nia.
  destruct (P1 * P2) as [|p|p] eqn:EP; try lia.
  destruct (binary_round_exact64 false p 0 HP ltac:(lia))
    as (q & k & _ & Hk & Hq & Hb).
  assert (Hprod : Zpos q1 * Zpos q2 = Zpos p * 2 ^ (k1 + k2)).
  { rewrite Hq1, Hq2, Z.pow_add_r, <- EP by lia. ring. }
  assert (Hn : k <= k1 + k2).
  { destruct (Z_le_gt_dec k (k1 + k2)) as [H|H]; [exact H|exfalso].
    assert (2 ^ (k1 + k2) < 2 ^ k) by (apply Z.pow_lt_mono_r; lia).
    assert (2 ^ 52 * 2 ^ 52 <= Zpos q1 * Zpos q2) by nia.
    assert (Zpos q1 * Zpos q2 < Zpos q) by (rewrite Hprod, Hq; nia).
    change (2 ^ 52 * 2 ^ 52) with (2 ^ 104) in *.
    assert (2 ^ 53 < 2 ^ 104) by reflexivity. lia. }
  exists q, k.
  split; [|split; [exact Hk | split; [exact Hq | exact Hb]]].
  unfold float_mul. cbn [SFmul].
  rewrite Pos2Z.inj_mul, Hprod.
  replace (Zpos p * 2 ^ (k1 + k2)) with (Zpos q * 2 ^ (k1 + k2 - k)).
  - rewrite binary_round_aux_exact.
    + f_equal. lia.
    + exact Hb.
    + lia.
    + assert (k <= 52).
      { destruct (Z_le_gt_dec k 52) as [H|H]; [exact H|exfalso].
        assert (2 ^ 53 <= 2 ^ k) by (apply Z.pow_le_mono_r; lia). nia. }
      lia.
  - rewrite Hq.
    replace (k1 + k2) with (k + (k1 + k2 - k)) at 2 by lia.
    rewrite (Z.pow_add_r 2 k) by lia. ring.
Qed.

Lemma floor_scaled_shift (X k E : Z) :
  0 <= k ->
  (if 0 <=? E - k then X * 2 ^ k * 2 ^ (E - k)
   else (X * 2 ^ k) / 2 ^ (- (E - k)))
  = floor_scaled X E.
Proof.
  intros Hk. unfold floor_scaled.
  destruct (0 <=? E - k) eqn:H1; destruct (0 <=? E) eqn:H2;
    rewrite ?Z.leb_le, ?Z.leb_gt in *; try lia.
  - rewrite <- Z.mul_assoc, <- Z.pow_add_r by lia. f_equal. f_equal. lia.
  - replace k with (E + (k - E)) at 1 by lia.
    rewrite Z.pow_add_r, Z.mul_assoc by lia.
    replace (- (E - k)) with (k - E) by lia.
    apply Z.div_mul. pose proof (Z.pow_pos_nonneg 2 (k - E)). lia.
  - replace (- (E - k)) with (- E + k) by lia.
    rewrite Z.pow_add_r by lia.
    apply Z.div_mul_cancel_r; [pose proof (Z.pow_pos_nonneg 2 (- E))
                              |pose proof (Z.pow_pos_nonneg 2 k)]; lia.
Qed.




(** What a binary32 bit pattern widens to. *)
Lemma float_of_bits32_cases (w : Z) :
  float_value (float_of_bits32 w) = None \/
  (exists s, float_of_bits32 w = S754_zero s) \/
  exists s P E,
    exact64 (float_of_bits32 w) s P E /\
    0 < P < 2 ^ 24 /\ -149 <= E <= 104.
Proof.
  unfold float_of_bits32.
  set (s := 2 ^ 31 <=? w).
  pose proof (Z.mod_pos_bound (w / 2 ^ 23) 256 eq_refl) as He.
  pose proof (Z.mod_pos_bound w (2 ^ 23) eq_refl) as Hm.
  set (e := (w / 2 ^ 23) mod 256) in *.
  set (m := w mod 2 ^ 23) in *.
  destruct (e =? 255) eqn:E255.
  { left. now destruct (m =? 0). }
  apply Z.eqb_neq in E255.
  assert (Hnorm : forall M E, 0 <= M < 2 ^ 24 -> -149 <= E <= 104 ->
            (exists s', binary_normalize prec64 emax64 (cond_Zopp s M) E s
                        = S754_zero s') \/
            exists s' P E',
              exact64 (binary_normalize prec64 emax64 (cond_Zopp s M) E s)
                      s' P E' /\
              0 < P < 2 ^ 24 /\ -149 <= E' <= 104).
  { intros M E HM HE.
    destruct M as [|p|p]; [left | right | lia].
    - exists s. now destruct s.
    - exists s, (Zpos p), E.
      split; [|split; [lia | exact HE]].
      assert (Zpos p < 2 ^ 53) by (assert (2 ^ 24 < 2 ^ 53) by reflexivity; lia).
      destruct s; cbn [cond_Zopp Z.opp binary_normalize];
        apply binary_round_exact64; lia. }
  right.
  destruct (e =? 0) eqn:E0.
  - apply Hnorm; lia.
  - apply Z.eqb_neq in E0.
    destruct (Hnorm (m + 2 ^ 23) (e - 150)) as [[s' H]|H]; [lia | lia | |].
    + left. now exists s'.
    + right. exact H.
Qed.

End Binary64.

(* ================================================================== *)
(** * Properties of the slider handler                                 *)
(* ================================================================== *)

Section Slider.

Variable int_of_str : str -> option Z.

Lemma float_127_exact64 : exact64 OscToMidi.float_127 false 127 0.
Proof.
  unfold OscToMidi.float_127. cbn [binary_normalize].
  apply binary_round_exact64; [reflexivity | lia].
Qed.

Lemma handle_slider_outcome (address : str) (a0 : OscArgument)
      (rest : list OscArgument) (slider_id value : Z) :
  OscToMidi.slider_values int_of_str address a0 = inr (slider_id, value) ->
  OscToMidi.handle_slider int_of_str true address (a0 :: rest)
  = if OscToMidi.data_byte slider_id && OscToMidi.data_byte value
    then OscToMidi.Outcome
           [OscToMidi.Send 0 slider_id value;
            OscToMidi.Printed (OscToMidi.SliderLine slider_id value)]
           None
    else OscToMidi.Outcome
           [OscToMidi.Printed (OscToMidi.SliderError ValueError)] None.
Proof.
  intros H. unfold OscToMidi.handle_slider, OscToMidi.slider_try.
  cbn [negb]. rewrite H. cbn [bind].
  rewrite control_change_on_channel_0.
  now destruct (OscToMidi.data_byte slider_id && OscToMidi.data_byte value).
Qed.

Lemma handle_slider_raises (address : str) (a0 : OscArgument)
      (rest : list OscArgument) (e : exn) :
  OscToMidi.slider_values int_of_str address a0 = inl e ->
  OscToMidi.handle_slider int_of_str true address (a0 :: rest)
  = match e with
    | ValueError | IndexError =>
        OscToMidi.Outcome [OscToMidi.Printed (OscToMidi.SliderError e)] None
    | _ => OscToMidi.Outcome [] (Some e)
    end.
Proof.
  intros H. unfold OscToMidi.handle_slider, OscToMidi.slider_try.
  cbn [negb]. rewrite H. cbn [bind]. now destruct e.
Qed.

Lemma slider_values_float (address : str) (f : float) (n : Z) :
  int_of_str (last_segment address) = Some n ->
  OscToMidi.slider_values int_of_str address (Float32 f)
  = (value <- int_of_float (float_mul f OscToMidi.float_127) ;;
     ret (n, value)).
Proof.
  intros H. unfold OscToMidi.slider_values. now rewrite H.
Qed.

End Slider.



(** ["/slider/10"] with the float [1.0] (bits [0x3f800000]): value [127]. *)
Example slider_full_scale :
  OscToMidi.handle_slider int_of_decimal true (lit "/slider/10")
    [Float32 (float_of_bits32 1065353216)]
  = OscToMidi.Outcome
      [OscToMidi.Send 0 10 127;
       OscToMidi.Printed (OscToMidi.SliderLine 10 127)]
      None.
Proof. reflexivity. Qed.

(** C9, as the code has it.  A ["/slider/<segment>"] message without
    arguments, or whose last segment does not convert to an integer, sends
    no control-change and lets no exception escape.  The segment that does
    not convert is reported by the error line of the handler; the message
    without arguments makes the handler return at once, and nothing is
    printed for it. *)
Theorem slider_bad_arguments_send_nothing :
  forall (int_of_str : str -> option Z) (midi_out : bool) (address : str)
         (args : list OscArgument),
    args = [] \/ int_of_str (last_segment address) = None ->
    OscToMidi.sends
      (OscToMidi.trace
         (OscToMidi.handle_slider int_of_str midi_out address args)) = 0 /\
    OscToMidi.raised
      (OscToMidi.handle_slider int_of_str midi_out address args) = None /\
    (args = [] ->
     OscToMidi.trace
       (OscToMidi.handle_slider int_of_str midi_out address args) = []) /\
    (args <> [] -> midi_out = true ->
     OscToMidi.trace
       (OscToMidi.handle_slider int_of_str midi_out address args)
     = [OscToMidi.Printed (OscToMidi.SliderError ValueError)]).
Proof.
  intros int_of_str midi_out address args H.
  destruct args as [|a0 rest].
  - cbn. repeat split; congruence.
  - destruct H as [H|H]; [discriminate|].
    unfold OscToMidi.handle_slider, OscToMidi.slider_try,
      OscToMidi.slider_values.
    rewrite H. destruct midi_out; cbn; repeat split; congruence.
Qed.

Lemma slider_bad_arguments_send_nothing_witness :
  OscToMidi.sends
    (OscToMidi.trace
       (OscToMidi.handle_slider int_of_decimal true (lit "/slider/vol")
          [Float32 (float_of_bits32 1056964608)])) = 0 /\
  OscToMidi.raised
    (OscToMidi.handle_slider int_of_decimal true (lit "/slider/vol")
       [Float32 (float_of_bits32 1056964608)]) = None /\
  ([Float32 (float_of_bits32 1056964608)] = [] ->
   OscToMidi.trace
     (OscToMidi.handle_slider int_of_decimal true (lit "/slider/vol")
        [Float32 (float_of_bits32 1056964608)]) = []) /\
  ([Float32 (float_of_bits32 1056964608)] <> [] -> true = true ->
   OscToMidi.trace
     (OscToMidi.handle_slider int_of_decimal true (lit "/slider/vol")
        [Float32 (float_of_bits32 1056964608)])
   = [OscToMidi.Printed (OscToMidi.SliderError ValueError)]).
Proof.
  apply (slider_bad_arguments_send_nothing int_of_decimal true
           (lit "/slider/vol") [Float32 (float_of_bits32 1056964608)]).
  right. reflexivity.
Defined.

(** C9 as stated fails for the message without arguments: the handler
    returns without printing, so no bad-argument signal is given. *)
Lemma slider_without_arguments_is_silent :
  OscToMidi.handle_slider int_of_decimal true (lit "/slider/10") []
  = OscToMidi.Outcome [] None /\
  ~ (exists e,
        In (OscToMidi.Printed (OscToMidi.SliderError e))
           (OscToMidi.trace
              (OscToMidi.handle_slider int_of_decimal true
                 (lit "/slider/10") []))).
Proof.
  split; [reflexivity|]. intros [e []].
Qed.

(* ================================================================== *)
(** * Further properties of the decoder                                *)
(* ================================================================== *)

Section FirstNul.

Lemma index_of_first (sub : byte) (data : bytes) :
  forall i, index_of sub data = Some i ->
            nth_error data i = Some sub /\ ~ In sub (firstn i data).
Proof.
  induction data as [|x rest IH]; intros i; cbn [index_of].
  - discriminate.
  - destruct (Byte.eqb x sub) eqn:E.
    + intros [= <-]. apply Byte.byte_dec_bl in E. subst x.
      split; [reflexivity | intros []].
    + apply Byte.eqb_false in E.
      destruct (index_of sub rest) as [j|]; cbn [option_map];
        [|discriminate].
      intros [= <-]. destruct (IH j eq_refl) as [Hn Hno].
      split; [exact Hn|]. cbn [firstn]. intros [H|H]; [congruence|auto].
Qed.

Lemma index_of_absent (sub : byte) (data : bytes) :
  ~ In sub data -> index_of sub data = None.
Proof.
  induction data as [|x rest IH]; intros H; cbn [index_of]; [reflexivity|].
  destruct (Byte.eqb x sub) eqn:E.
  - apply Byte.byte_dec_bl in E. subst x. exfalso. apply H. now left.
  - rewrite IH; [reflexivity|]. intros Hin. apply H. now right.
Qed.

Lemma index_of_app (sub : byte) (text rest : bytes) :
  ~ In sub text ->
  index_of sub (text ++ sub :: rest) = Some (List.length text).
Proof.
  induction text as [|x text IH]; intros H; cbn [index_of app List.length].
  - now rewrite (Byte.byte_dec_lb eq_refl).
  - destruct (Byte.eqb x sub) eqn:E.
    + apply Byte.byte_dec_bl in E. subst x. exfalso. apply H. now left.
    + rewrite IH; [reflexivity|]. intros Hin. apply H. now right.
Qed.

Lemma find_first (data : bytes) (sub : byte) (start e : nat) :
  find data sub start = Some e ->
  nth_error data e = Some sub /\ ~ In sub (slice data start e).
Proof.
  unfold find, slice.
  destruct (index_of sub (skipn start data)) as [i|] eqn:E;
    cbn [option_map]; [|discriminate].
  intros [= <-]. destruct (index_of_first _ _ _ E) as [Hn Hno].
  split.
  - now rewrite nth_error_skipn in Hn.
  - now replace (start + i - start) with i by lia.
Qed.

End FirstNul.

Section Utf8.

Lemma decode_utf8_cons (b0 : byte) (r0 : bytes) :
  decode_utf8 (b0 :: r0)
  = (let c0 := Byte.to_N b0 in
     if (c0 <? 128)%N then
       bind (decode_utf8 r0) (fun s => ret (c0 :: s))
     else if between 194 c0 223 then
       match r0 with
       | b1 :: r1 =>
           let c1 := Byte.to_N b1 in
           if continuation c1 then
             bind (decode_utf8 r1) (fun s =>
               ret (((c0 - 192) * 64 + (c1 - 128))%N :: s))
           else raise UnicodeDecodeError
       | _ => raise UnicodeDecodeError
       end
     else if between 224 c0 239 then
       match r0 with
       | b1 :: b2 :: r2 =>
           let c1 := Byte.to_N b1 in
           let c2 := Byte.to_N b2 in
           let lo := if (c0 =? 224)%N then 160%N else 128%N in
           let hi := if (c0 =? 237)%N then 159%N else 191%N in
           if between lo c1 hi && continuation c2 then
             bind (decode_utf8 r2) (fun s =>
               ret (((c0 - 224) * 4096 + (c1 - 128) * 64 + (c2 - 128))%N :: s))
           else raise UnicodeDecodeError
       | _ => raise UnicodeDecodeError
       end
     else if between 240 c0 244 then
       match r0 with
       | b1 :: b2 :: b3 :: r3 =>
           let c1 := Byte.to_N b1 in
           let c2 := Byte.to_N b2 in
           let c3 := Byte.to_N b3 in
           let lo := if (c0 =? 240)%N then 144%N else 128%N in
           let hi := if (c0 =? 244)%N then 143%N else 191%N in
           if between lo c1 hi && continuation c2 && continuation c3 then
             bind (decode_utf8 r3) (fun s =>
               ret (((c0 - 240) * 262144 + (c1 - 128) * 4096
                     + (c2 - 128) * 64 + (c3 - 128))%N :: s))
           else raise UnicodeDecodeError
       | _ => raise UnicodeDecodeError
       end
     else raise UnicodeDecodeError).
Proof. reflexivity. Qed.

(** The first character of a decoded text and the rest of the bytes: a
    byte below 128 is its own character, a longer sequence gives a
    character from 128 on. *)
Lemma decode_utf8_head (b0 : byte) (r0 : bytes) (s : str) :
  decode_utf8 (b0 :: r0) = inr s ->
  exists c s' r,
    s = c :: s' /\ decode_utf8 r = inr s' /\
    (exists used, r0 = used ++ r) /\
    (((Byte.to_N b0 < 128)%N /\ c = Byte.to_N b0 /\ r = r0) \/
     ((128 <= Byte.to_N b0)%N /\ (128 <= c)%N)).
Proof.
  rewrite decode_utf8_cons. cbv zeta. unfold between, continuation, between.
  destruct (Byte.to_N b0 <? 128)%N eqn:E0.
  - apply N.ltb_lt in E0.
    destruct (decode_utf8 r0) as [e|s'] eqn:Er; cbn [bind ret];
      [discriminate|].
    intros [= <-]. exists (Byte.to_N b0), s', r0.
    repeat split; try assumption.
    + now exists [].
    + left. auto.
  - apply N.ltb_ge in E0.
    destruct ((194 <=? Byte.to_N b0) && (Byte.to_N b0 <=? 223))%N eqn:E2.
    { destruct r0 as [|b1 r1]; [discriminate|].
      destruct ((128 <=? Byte.to_N b1) && (Byte.to_N b1 <=? 191))%N;
        [|discriminate].
      destruct (decode_utf8 r1) as [e|s'] eqn:Er; cbn [bind ret];
        [discriminate|].
      intros [= <-]. do 3 eexists.
      split; [reflexivity|]. split; [exact Er|].
      split; [now exists [b1]|]. right.
      apply andb_prop in E2 as [Ha Hb]. apply N.leb_le in Ha, Hb. lia. }
    destruct ((224 <=? Byte.to_N b0) && (Byte.to_N b0 <=? 239))%N eqn:E3.
    { destruct r0 as [|b1 [|b2 r2]]; try discriminate.
      match goal with
      | |- context [if ?c then _ else _] => destruct c eqn:Ec
      end; [|discriminate].
      destruct (decode_utf8 r2) as [e|s'] eqn:Er; cbn [bind ret];
        [discriminate|].
      intros [= <-]. do 3 eexists.
      split; [reflexivity|]. split; [exact Er|].
      split; [now exists [b1; b2]|]. right.
      apply andb_prop in E3 as [Ha Hb]. apply N.leb_le in Ha, Hb.
      apply andb_prop in Ec as [Ec _]. apply andb_prop in Ec as [Hlo _].
      apply N.leb_le in Hlo.
      destruct (Byte.to_N b0 =? 224)%N eqn:E224;
        [apply N.eqb_eq in E224 | apply N.eqb_neq in E224]; lia. }
    destruct ((240 <=? Byte.to_N b0) && (Byte.to_N b0 <=? 244))%N eqn:E4;
      [|discriminate].
    destruct r0 as [|b1 [|b2 [|b3 r3]]]; try discriminate.
    match goal with
    | |- context [if ?c then _ else _] => destruct c eqn:Ec
    end; [|discriminate].
    destruct (decode_utf8 r3) as [e|s'] eqn:Er; cbn [bind ret];
      [discriminate|].
    intros [= <-]. do 3 eexists.
    split; [reflexivity|]. split; [exact Er|].
    split; [now exists [b1; b2; b3]|]. right.
    apply andb_prop in E4 as [Ha Hb]. apply N.leb_le in Ha, Hb.
    apply andb_prop in Ec as [Ec _]. apply andb_prop in Ec as [Ec _].
    apply andb_prop in Ec as [Hlo _]. apply N.leb_le in Hlo.
    destruct (Byte.to_N b0 =? 240)%N eqn:E240;
      [apply N.eqb_eq in E240 | apply N.eqb_neq in E240]; lia.
Qed.

Lemma to_N_zero (x : byte) : Byte.to_N x = 0%N -> x = x00.
Proof.
  intros H. pose proof (Byte.of_to_N x) as E. rewrite H in E.
  now injection E.
Qed.

(** Bytes without a NUL decode to text without a NUL character. *)
Lemma decode_utf8_no_nul (n : nat) :
  forall (bs : bytes) (s : str),
    List.length bs <= n ->
    decode_utf8 bs = inr s -> ~ In x00 bs -> ~ In 0%N s.
Proof.
  induction n as [|n IH]; intros bs s Hlen Hdec Hno.
  - destruct bs; [|cbn in Hlen; lia]. cbn in Hdec. injection Hdec as <-.
    intros [].
  - destruct bs as [|b0 r0].
    + cbn in Hdec. injection Hdec as <-. intros [].
    + destruct (decode_utf8_head _ _ _ Hdec)
        as (c & s' & r & -> & Hr & [used ->] & Hc).
      intros [H0|Hin].
      * destruct Hc as [(_ & -> & _) | [_ Hge]]; [|lia].
        apply to_N_zero in H0. apply Hno. now left.
      * revert Hin. apply (IH r s'); [| exact Hr |].
        -- cbn [List.length] in Hlen. rewrite length_app in Hlen. lia.
        -- intros Hin. apply Hno. right. apply in_or_app. now right.
Qed.

End Utf8.

Section DecoderInversion.

Lemma osc_padding_spec (n : nat) :
  osc_padding n <= 3 /\ 4 <= n + 1 + osc_padding n /\
  (n + 1 + osc_padding n) mod 4 = 0.
Proof.
  unfold osc_padding.
  assert (Hm : (n + 1) mod 4 < 4) by (apply Nat.mod_upper_bound; lia).
  pose proof (Nat.div_mod_eq (n + 1) 4) as Hd.
  cbv zeta. destruct (4 - (n + 1) mod 4 =? 4) eqn:E.
  - apply Nat.eqb_eq in E. assert (Hz : (n + 1) mod 4 = 0) by lia.
    rewrite Nat.add_0_r. repeat split; [lia | lia | exact Hz].
  - apply Nat.eqb_neq in E. repeat split; [lia | lia |].
    replace (n + 1 + (4 - (n + 1) mod 4))
      with (0 + (1 + (n + 1) / 4) * 4) by lia.
    now rewrite Nat.Div0.mod_add.
Qed.

Lemma parse_osc_string_some (data : bytes) (offset next : nat) (s : str) :
  parse_osc_string data offset = inr (Some s, next) ->
  exists e,
    find data x00 offset = Some e /\
    decode_utf8 (slice data offset e) = inr s /\
    next = e + 1 + osc_padding (e - offset).
Proof.
  unfold parse_osc_string.
  destruct (find data x00 offset) as [e|] eqn:Ef; [|discriminate].
  destruct (decode_utf8 (slice data offset e)) as [err|s'] eqn:Ed;
    cbn [bind ret]; [discriminate|].
  intros [= <- <-]. exists e.
  split; [reflexivity|]. split; [exact Ed | reflexivity].
Qed.

(** What a successful decode went through. *)
Lemma parse_osc_message_some (data : bytes) (printed : list event)
      (address : str) (args : list OscArgument) :
  parse_osc_message data = (printed, Some (address, args)) ->
  printed = [] /\
  exists offset1,
    parse_osc_string data 0 = inr (Some address, offset1) /\
    falsy (Some address) = false /\
    startswith address (lit "/") = true /\
    (args = [] \/
     exists type_tag offset2 offset',
       offset1 < len data /\
       parse_osc_string data offset1 = inr (Some type_tag, offset2) /\
       startswith type_tag (lit ",") = true /\
       parse_args data (tl type_tag) (offset2, []) = inr (offset', args)).
Proof.
  unfold parse_osc_message.
  destruct (parse_osc_message_body data) as [e|r] eqn:Eb; [discriminate|].
  intros [= <- ->]. split; [reflexivity|].
  unfold parse_osc_message_body in Eb.
  destruct (parse_osc_string data 0) as [e|[[a|] offset1]] eqn:E1;
    cbn [bind ret] in Eb; try discriminate.
  destruct (falsy (Some a)) eqn:Ef; cbn [orb] in Eb; [discriminate|].
  destruct (startswith a (lit "/")) eqn:Es; cbn [negb] in Eb;
    [|discriminate].
  destruct (len data <=? offset1) eqn:El.
  { injection Eb as <- <-. exists offset1. auto. }
  apply Nat.leb_gt in El.
  destruct (parse_osc_string data offset1) as [e|[[tag|] offset2]] eqn:E2;
    cbn [bind ret] in Eb; try discriminate.
  - destruct (falsy (Some tag)) eqn:Eft; cbn [orb] in Eb.
    { injection Eb as <- <-. exists offset1. auto. }
    destruct (startswith tag (lit ",")) eqn:Est; cbn [negb] in Eb.
    + destruct (parse_args data (tl tag) (offset2, []))
        as [e|[offset' args']] eqn:Ea; cbn [bind ret] in Eb;
        [discriminate|].
      injection Eb as <- <-. exists offset1.
      repeat split; try assumption. right.
      exists tag, offset2, offset'. auto.
    + injection Eb as <- <-. exists offset1. auto.
  - injection Eb as <- <-. exists offset1. auto.
Qed.

Lemma be32_bounds (b0 b1 b2 b3 : byte) :
  (0 <= be32 b0 b1 b2 b3 < 2 ^ 32)%Z.
Proof.
  unfold be32.
  pose proof (Byte.to_N_bounded b0). pose proof (Byte.to_N_bounded b1).
  pose proof (Byte.to_N_bounded b2). pose proof (Byte.to_N_bounded b3).
  change (2 ^ 32)%Z with 4294967296%Z. change (2 ^ 24)%Z with 16777216%Z.
  change (2 ^ 16)%Z with 65536%Z. change (2 ^ 8)%Z with 256%Z. lia.
Qed.

Lemma signed32_bounds (u : Z) :
  (0 <= u < 2 ^ 32)%Z -> (- 2 ^ 31 <= signed32 u < 2 ^ 31)%Z.
Proof.
  unfold signed32. change (2 ^ 32)%Z with 4294967296%Z.
  change (2 ^ 31)%Z with 2147483648%Z.
  destruct (u <? 2147483648)%Z eqn:E;
    [apply Z.ltb_lt in E | apply Z.ltb_ge in E]; lia.
Qed.

Variable data : bytes.

(** One turn of the loop either leaves the state alone or reads four
    bytes that lie inside the buffer. *)
Lemma parse_arg_step (offset offset' : nat) (args args' : list OscArgument)
      (t : codepoint) :
  parse_arg data (offset, args) t = inr (offset', args') ->
  (offset' = offset /\ args' = args /\
   (len data < offset + 4 \/
    ((t =? chr "i")%N || (t =? chr "f")%N) = false)) \/
  (exists a, offset' = offset + 4 /\ args' = args ++ [a] /\
             offset + 4 <= len data /\
             ((t =? chr "i")%N || (t =? chr "f")%N) = true /\
             forall i, a = Int32 i -> (- 2 ^ 31 <= i < 2 ^ 31)%Z).
Proof.
  destruct (Nat.le_gt_cases (offset + 4) (len data)) as [H|H].
  - destruct (N.eq_dec t (chr "i")) as [->|Hi].
    + destruct (parse_arg_int data offset args H)
        as (b0 & b1 & b2 & b3 & _ & ->).
      intros [= <- <-]. right. eexists.
      split; [reflexivity|]. split; [reflexivity|]. split; [lia|].
      split; [reflexivity|].
      intros i [= <-]. apply signed32_bounds, be32_bounds.
    + destruct (N.eq_dec t (chr "f")) as [->|Hf].
      * destruct (parse_arg_float data offset args H)
          as (b0 & b1 & b2 & b3 & _ & ->).
        intros [= <- <-]. right. eexists.
        split; [reflexivity|]. split; [reflexivity|]. split; [lia|].
        split; [reflexivity|].
        intros i [=].
      * rewrite parse_arg_other by assumption. intros [= <- <-].
        left. repeat split. right.
        apply N.eqb_neq in Hi, Hf. now rewrite Hi, Hf.
  - rewrite parse_arg_starved by lia. intros [= <- <-].
    left. repeat split. now left.
Qed.

Lemma parse_args_invariant (tags : str) :
  forall (offset offset' : nat) (args args' : list OscArgument),
    parse_args data tags (offset, args) = inr (offset', args') ->
    exists new,
      args' = args ++ new /\
      offset' = offset + 4 * List.length new /\
      (new <> [] -> offset' <= len data) /\
      (forall i, In (Int32 i) new -> (- 2 ^ 31 <= i < 2 ^ 31)%Z) /\
      List.length new = Nat.min (declared tags) ((len data - offset) / 4).
Proof.
  induction tags as [|t tags IH]; intros offset offset' args args';
    cbn [parse_args].
  - intros [= <- <-]. exists []. rewrite app_nil_r.
    split; [reflexivity|]. split; [cbn; lia|].
    split; [congruence|]. split; [intros i []|].
    unfold declared. reflexivity.
  - destruct (parse_arg data (offset, args) t) as [e|[offset1 args1]] eqn:E;
      cbn [bind]; [discriminate|].
    intros Hrest. destruct (IH _ _ _ _ Hrest)
      as (new & -> & -> & Hin & Hrange & Hlen).
    rewrite declared_cons.
    destruct (parse_arg_step _ _ _ _ _ E)
      as [(-> & -> & Hwhy) | (a & -> & -> & Hle & Hif & Ha)].
    + exists new.
      split; [reflexivity|]. split; [reflexivity|].
      split; [exact Hin|]. split; [exact Hrange|].
      rewrite Hlen. destruct Hwhy as [Hdry | Hnot].
      * rewrite (Nat.div_small (len data - offset) 4) by lia. lia.
      * rewrite Hnot. reflexivity.
    + exists (a :: new). rewrite <- app_assoc. cbn [app List.length].
      split; [reflexivity|]. split; [|split; [|split]].
      * lia.
      * intros _. destruct new as [|a' new'].
        -- cbn [List.length]. lia.
        -- apply Hin. discriminate.
      * intros i [Hi|Hi]; [now apply Ha | now apply Hrange].
      * rewrite Hlen, Hif.
        replace (len data - offset) with (len data - (offset + 4) + 1 * 4)
          by lia.
        rewrite Nat.div_add by lia. lia.
Qed.

End DecoderInversion.

(** X1.  When [parse_osc_string] returns a string, the offset it returns
    lies beyond the start offset and exceeds the length of the buffer by at
    most three (the padding is assumed, not looked at), and the string
    holds no NUL character. *)
Theorem parse_osc_string_offset_bounds :
  forall (data : bytes) (offset next : nat) (s : str),
    parse_osc_string data offset = inr (Some s, next) ->
    offset < next /\ next <= len data + 3 /\ ~ In 0%N s.
Proof.
  intros data offset next s H.
  destruct (parse_osc_string_some _ _ _ _ H) as (e & Hfind & Hdec & ->).
  destruct (find_bounds _ _ _ _ Hfind) as [Hle Hlt].
  destruct (osc_padding_spec (e - offset)) as (Hpad & _ & _).
  split; [lia|]. split; [lia|].
  destruct (find_first _ _ _ _ Hfind) as [_ Hno].
  exact (decode_utf8_no_nul _ _ _ (le_n _) Hdec Hno).
Qed.

Lemma parse_osc_string_offset_bounds_witness :
  0 < 8 /\ 8 <= len (ascii_bytes "/abc" ++ [x00]) + 3 /\
  ~ In 0%N (lit "/abc").
Proof.
  apply (parse_osc_string_offset_bounds
           (ascii_bytes "/abc" ++ [x00]) 0 8 (lit "/abc")).
  reflexivity.
Defined.

(** X2.  Whenever [parse_osc_message] returns a message, nothing was
    printed, the buffer begins with the byte ['/'], and the address is not
    empty, begins with ['/'] and holds no NUL character. *)
Theorem decoded_address_is_well_formed :
  forall (data : bytes) (printed : list event) (address : str)
         (args : list OscArgument),
    parse_osc_message data = (printed, Some (address, args)) ->
    printed = [] /\
    hd_error data = Some x2f /\
    address <> [] /\
    startswith address (lit "/") = true /\
    ~ In 0%N address.
Proof.
  intros data printed address args H.
  destruct (parse_osc_message_some _ _ _ _ H)
    as (Hp & offset1 & H1 & Hf & Hs & _).
  split; [exact Hp|].
  destruct (parse_osc_string_some _ _ _ _ H1) as (e & Hfind & Hdec & _).
  destruct (find_first _ _ _ _ Hfind) as [_ Hno].
  assert (Hne : address <> []) by (intros ->; discriminate Hf).
  split; [|split; [exact Hne | split; [exact Hs|]]].
  - unfold slice in Hdec. rewrite Nat.sub_0_r in Hdec. cbn [skipn] in Hdec.
    destruct data as [|b0 rest].
    + rewrite firstn_nil in Hdec. cbn in Hdec. injection Hdec as <-.
      now contradiction Hne.
    + destruct e as [|e].
      { cbn in Hdec. injection Hdec as <-. now contradiction Hne. }
      cbn [firstn] in Hdec.
      destruct (decode_utf8_head _ _ _ Hdec)
        as (c & s' & r & -> & _ & _ & Hc).
      cbn [startswith lit list_ascii_of_string map] in Hs.
      apply andb_prop in Hs as [Hc47 _]. apply N.eqb_eq in Hc47.
      destruct Hc as [(_ & Hcb & _) | [_ Hge]].
      * cbn [hd_error]. f_equal.
        pose proof (Byte.of_to_N b0) as E. rewrite <- Hcb, Hc47 in E.
        now injection E.
      * rewrite Hc47 in Hge. cbn in Hge. lia.
  - exact (decode_utf8_no_nul _ _ _ (le_n _) Hdec Hno).
Qed.

Lemma decoded_address_is_well_formed_witness :
  @nil event = [] /\
  hd_error (ascii_bytes "/x" ++ [x00; x00]) = Some x2f /\
  lit "/x" <> [] /\
  startswith (lit "/x") (lit "/") = true /\
  ~ In 0%N (lit "/x").
Proof.
  apply (decoded_address_is_well_formed
           (ascii_bytes "/x" ++ [x00; x00]) [] (lit "/x") []).
  reflexivity.
Defined.

(** X3.  The arguments of a decoded message were all read inside the
    buffer, after at least four bytes of address and four bytes of type
    tag: a message with [n > 0] arguments comes from a buffer of at least
    [8 + 4 * n] bytes. *)
Theorem decoded_arguments_lie_in_the_buffer :
  forall (data : bytes) (printed : list event) (address : str)
         (args : list OscArgument),
    parse_osc_message data = (printed, Some (address, args)) ->
    args <> [] ->
    8 + 4 * List.length args <= len data.
Proof.
  intros data printed address args H Hne.
  destruct (parse_osc_message_some _ _ _ _ H)
    as (_ & offset1 & H1 & _ & _ & [-> | Hargs]); [congruence|].
  destruct Hargs as (tag & offset2 & offset' & _ & H2 & _ & Ha).
  destruct (parse_osc_string_some _ _ _ _ H1) as (e1 & Hf1 & _ & ->).
  destruct (parse_osc_string_some _ _ _ _ H2) as (e2 & Hf2 & _ & ->).
  destruct (find_bounds _ _ _ _ Hf1) as [_ _].
  destruct (find_bounds _ _ _ _ Hf2) as [Hle2 _].
  destruct (osc_padding_spec (e1 - 0)) as (_ & Hp1 & _).
  destruct (osc_padding_spec (e2 - (e1 + 1 + osc_padding (e1 - 0))))
    as (_ & Hp2 & _).
  destruct (parse_args_invariant data _ _ _ _ _ Ha)
    as (new & Hnew & -> & Hin & _ & _).
  cbn [app] in Hnew. subst new. specialize (Hin Hne). lia.
Qed.

Lemma decoded_arguments_lie_in_the_buffer_witness :
  8 + 4 * List.length [Int32 7]
  <= len (ascii_bytes "/x" ++ [x00; x00] ++ ascii_bytes ",i" ++ [x00; x00]
          ++ [x00; x00; x00; x07]).
Proof.
  apply (decoded_arguments_lie_in_the_buffer
           (ascii_bytes "/x" ++ [x00; x00] ++ ascii_bytes ",i" ++ [x00; x00]
            ++ [x00; x00; x00; x07]) [] (lit "/x") [Int32 7]).
  - reflexivity.
  - discriminate.
Defined.

(** X4.  Every integer argument of a decoded message lies in the range of
    a signed 32-bit integer. *)
Theorem decoded_integers_fit_32_bits :
  forall (data : bytes) (printed : list event) (address : str)
         (args : list OscArgument) (i : Z),
    parse_osc_message data = (printed, Some (address, args)) ->
    In (Int32 i) args ->
    (- 2 ^ 31 <= i < 2 ^ 31)%Z.
Proof.
  intros data printed address args i H Hi.
  destruct (parse_osc_message_some _ _ _ _ H)
    as (_ & offset1 & _ & _ & _ & [-> | Hargs]); [destruct Hi|].
  destruct Hargs as (tag & offset2 & offset' & _ & _ & _ & Ha).
  destruct (parse_args_invariant data _ _ _ _ _ Ha)
    as (new & Hnew & _ & _ & Hrange & _).
  cbn [app] in Hnew. subst new. now apply Hrange.
Qed.

Lemma decoded_integers_fit_32_bits_witness :
  (- 2 ^ 31 <= -1 < 2 ^ 31)%Z.
Proof.
  apply (decoded_integers_fit_32_bits
           (ascii_bytes "/x" ++ [x00; x00] ++ ascii_bytes ",i" ++ [x00; x00]
            ++ [xff; xff; xff; xff]) [] (lit "/x") [Int32 (-1)] (-1)).
  - reflexivity.
  - now left.
Defined.

(** X5.  Once the address and a type tag that begins with [','] are read,
    the number of arguments decoded is the smaller of the number of ['i']
    and ['f'] characters in the tag and the number of whole four-byte
    words left in the buffer after the tag. *)
Theorem decoded_argument_count :
  forall (data : bytes) (address type_tag : str) (offset1 offset2 : nat),
    parse_osc_string data 0 = inr (Some address, offset1) ->
    falsy (Some address) = false ->
    startswith address (lit "/") = true ->
    offset1 < len data ->
    parse_osc_string data offset1 = inr (Some type_tag, offset2) ->
    startswith type_tag (lit ",") = true ->
    exists args,
      parse_osc_message data = ([], Some (address, args)) /\
      List.length args
      = Nat.min (declared (tl type_tag)) ((len data - offset2) / 4).
Proof.
  intros data address type_tag offset1 offset2 Ha Hf Hs Hl Ht Hc.
  destruct (parse_args_returns data (tl type_tag) (offset2, []))
    as [[offset' args] Hargs].
  exists args. split.
  - unfold parse_osc_message.
    rewrite (parse_osc_message_after_address data address offset1 Ha Hf Hs Hl).
    rewrite Ht. cbn [bind]. rewrite Hc.
    assert (Hne : falsy (Some type_tag) = false).
    { destruct type_tag; [discriminate Hc | reflexivity]. }
    rewrite Hne. cbn [negb orb]. now rewrite Hargs.
  - destruct (parse_args_invariant data _ _ _ _ _ Hargs)
      as (new & Hnew & _ & _ & _ & Hlen).
    cbn [app] in Hnew. now subst new.
Qed.

Lemma decoded_argument_count_witness :
  exists args,
    parse_osc_message
      (ascii_bytes "/x" ++ [x00; x00] ++ ascii_bytes ",isi" ++ [x00]
       ++ [x00; x00; x00; x07] ++ [x00; x00; x00; x08] ++ [x00])
    = ([], Some (lit "/x", args)) /\
    List.length args
    = Nat.min (declared (tl (lit ",isi")))
        ((len (ascii_bytes "/x" ++ [x00; x00] ++ ascii_bytes ",isi" ++ [x00]
               ++ [x00; x00; x00; x07] ++ [x00; x00; x00; x08] ++ [x00])
          - 12) / 4).
Proof.
  apply (decoded_argument_count
           (ascii_bytes "/x" ++ [x00; x00] ++ ascii_bytes ",isi" ++ [x00]
            ++ [x00; x00; x00; x07] ++ [x00; x00; x00; x08] ++ [x00])
           (lit "/x") (lit ",isi") 4 12); try reflexivity.
  vm_compute. lia.
Defined.

(** X6.  A type tag whose bytes are not valid UTF-8 does not give a
    message without arguments: the whole message is rejected, the address
    with it, and one parse-error line is printed. *)
Theorem undecodable_type_tag_rejects_the_message :
  forall (data : bytes) (address : str) (offset end_ : nat) (e : exn),
    parse_osc_string data 0 = inr (Some address, offset) ->
    falsy (Some address) = false ->
    startswith address (lit "/") = true ->
    offset < len data ->
    find data x00 offset = Some end_ ->
    decode_utf8 (slice data offset end_) = inl e ->
    parse_osc_message data = ([Printed (ParseError e)], None).
Proof.
  intros data address offset end_ e Ha Hf Hs Hl Hfind Hdec.
  unfold parse_osc_message.
  rewrite (parse_osc_message_after_address data address offset Ha Hf Hs Hl).
  unfold parse_osc_string at 1. now rewrite Hfind, Hdec.
Qed.

Lemma undecodable_type_tag_rejects_the_message_witness :
  parse_osc_message (ascii_bytes "/x" ++ [x00; x00] ++ [x2c; xff; x00; x00])
  = ([Printed (ParseError UnicodeDecodeError)], None).
Proof.
  apply (undecodable_type_tag_rejects_the_message
           (ascii_bytes "/x" ++ [x00; x00] ++ [x2c; xff; x00; x00])
           (lit "/x") 4 6 UnicodeDecodeError); try reflexivity.
  vm_compute. lia.
Defined.

Section WireForm.

Lemma to_N_inj (x y : byte) : Byte.to_N x = Byte.to_N y -> x = y.
Proof.
  intros H. pose proof (Byte.of_to_N x) as Ex.
  rewrite H, Byte.of_to_N in Ex. now injection Ex.
Qed.

Lemma plain_byte_spec (c : byte) :
  plain_byte c = true -> (Byte.to_N c < 128)%N /\ c <> x00.
Proof.
  unfold plain_byte. intros H. apply andb_prop in H as [H0 H1].
  apply N.ltb_lt in H0, H1. split; [exact H1|]. intros ->. cbn in H0. lia.
Qed.

Lemma plain_text_has_no_nul (text : bytes) :
  forallb plain_byte text = true -> ~ In x00 text.
Proof.
  induction text as [|c text IH]; cbn [forallb]; [intros _ []|].
  intros H. apply andb_prop in H as [Hc Ht].
  destruct (plain_byte_spec c Hc) as [_ Hne].
  intros [E|Hin]; [congruence | now apply IH].
Qed.

(** Plain text decodes to its own bytes, character by character. *)
Lemma decode_utf8_plain (text : bytes) :
  forallb plain_byte text = true ->
  decode_utf8 text = inr (map Byte.to_N text).
Proof.
  induction text as [|c text IH]; cbn [forallb]; [reflexivity|].
  intros H. apply andb_prop in H as [Hc Ht].
  destruct (plain_byte_spec c Hc) as [Hlt _].
  rewrite decode_utf8_cons. cbv zeta.
  apply N.ltb_lt in Hlt. rewrite Hlt, (IH Ht). reflexivity.
Qed.

Lemma osc_string_length (text : bytes) :
  List.length (osc_string text)
  = List.length text + 1 + osc_padding (List.length text).
Proof.
  unfold osc_string. rewrite length_app. cbn [List.length].
  rewrite repeat_length. lia.
Qed.

(** Reading an OSC string where one stands in the buffer. *)
Lemma parse_osc_string_wire (pre text post : bytes) :
  forallb plain_byte text = true ->
  parse_osc_string (pre ++ osc_string text ++ post) (List.length pre)
  = inr (Some (map Byte.to_N text),
         List.length pre + List.length (osc_string text)).
Proof.
  intros Hplain.
  assert (Hskip : skipn (List.length pre) (pre ++ osc_string text ++ post)
                  = text ++ x00 :: (repeat x00 (osc_padding (List.length text))
                                    ++ post)).
  { rewrite skipn_app, skipn_all, Nat.sub_diag. cbn [skipn app].
    unfold osc_string. now rewrite <- app_assoc. }
  assert (Hfind : find (pre ++ osc_string text ++ post) x00 (List.length pre)
                  = Some (List.length pre + List.length text)).
  { unfold find. rewrite Hskip, index_of_app; [reflexivity|].
    now apply plain_text_has_no_nul. }
  assert (Hslice : slice (pre ++ osc_string text ++ post) (List.length pre)
                     (List.length pre + List.length text) = text).
  { unfold slice. rewrite Hskip.
    replace (List.length pre + List.length text - List.length pre)
      with (List.length text + 0) by lia.
    rewrite firstn_app_2. cbn [firstn]. apply app_nil_r. }
  unfold parse_osc_string. rewrite Hfind, Hslice, (decode_utf8_plain _ Hplain).
  cbn [bind ret]. rewrite osc_string_length. unfold osc_padding.
  replace (List.length pre + List.length text - List.length pre)
    with (List.length text) by lia.
  unfold ret. f_equal. f_equal. now rewrite <- !Nat.add_assoc.
Qed.

Variable trailing : bytes.

(** The argument loop on the payload of a list of items. *)
Lemma parse_args_wire (items : list wire_item) :
  forall (pre : bytes) (args : list OscArgument),
    forallb wire_item_ok items = true ->
    parse_args (pre ++ flat_map wire_payload items ++ trailing)
      (map Byte.to_N (map wire_tag items)) (List.length pre, args)
    = inr (List.length pre + List.length (flat_map wire_payload items),
           args ++ flat_map wire_argument items).
Proof.
  induction items as [|it items IH]; intros pre args Hok.
  - cbn. now rewrite Nat.add_0_r, app_nil_r.
  - cbn [forallb] in Hok. apply andb_prop in Hok as [Hit Hok].
    cbn [map flat_map parse_args].
    destruct it as [b0 b1 b2 b3 | b0 b1 b2 b3 | c].
    + cbn [wire_payload wire_tag wire_argument].
      set (data := pre ++ ([b0; b1; b2; b3] ++ flat_map wire_payload items)
                       ++ trailing).
      assert (Hlen : List.length pre + 4 <= len data).
      { unfold data, len. rewrite !length_app. cbn [List.length]. lia. }
      assert (Hslice : slice data (List.length pre) (List.length pre + 4)
                       = [b0; b1; b2; b3]).
      { unfold slice, data. rewrite skipn_app, skipn_all, Nat.sub_diag.
        replace (List.length pre + 4 - List.length pre) with 4 by lia.
        reflexivity. }
      destruct (parse_arg_int data (List.length pre) args Hlen)
        as (c0 & c1 & c2 & c3 & Hs & Hstep).
      rewrite Hslice in Hs. injection Hs as <- <- <- <-.
      change (Byte.to_N x69) with (chr "i"). rewrite Hstep. cbn [bind].
      specialize (IH (pre ++ [b0; b1; b2; b3])
                    (args ++ [Int32 (signed32 (be32 b0 b1 b2 b3))]) Hok).
      rewrite length_app in IH. cbn [List.length] in IH.
      unfold data. rewrite <- !app_assoc in *. cbn [app] in *.
      rewrite IH. cbn [List.length].
      replace (List.length pre
               + S (S (S (S (List.length (flat_map wire_payload items))))))
        with (List.length pre + 4
              + List.length (flat_map wire_payload items)) by lia.
      reflexivity.
    + cbn [wire_payload wire_tag wire_argument].
      set (data := pre ++ ([b0; b1; b2; b3] ++ flat_map wire_payload items)
                       ++ trailing).
      assert (Hlen : List.length pre + 4 <= len data).
      { unfold data, len. rewrite !length_app. cbn [List.length]. lia. }
      assert (Hslice : slice data (List.length pre) (List.length pre + 4)
                       = [b0; b1; b2; b3]).
      { unfold slice, data. rewrite skipn_app, skipn_all, Nat.sub_diag.
        replace (List.length pre + 4 - List.length pre) with 4 by lia.
        reflexivity. }
      destruct (parse_arg_float data (List.length pre) args Hlen)
        as (c0 & c1 & c2 & c3 & Hs & Hstep).
      rewrite Hslice in Hs. injection Hs as <- <- <- <-.
      change (Byte.to_N x66) with (chr "f"). rewrite Hstep. cbn [bind].
      specialize (IH (pre ++ [b0; b1; b2; b3])
                    (args ++ [Float32 (float_of_bits32 (be32 b0 b1 b2 b3))])
                    Hok).
      rewrite length_app in IH. cbn [List.length] in IH.
      unfold data. rewrite <- !app_assoc in *. cbn [app] in *.
      rewrite IH. cbn [List.length].
      replace (List.length pre
               + S (S (S (S (List.length (flat_map wire_payload items))))))
        with (List.length pre + 4
              + List.length (flat_map wire_payload items)) by lia.
      reflexivity.
    + cbn [wire_payload wire_tag wire_argument app wire_item_ok] in *.
      apply andb_prop in Hit as [Hit Hf]. apply andb_prop in Hit as [_ Hi].
      rewrite parse_arg_other.
      * cbn [bind]. rewrite (IH pre args Hok). reflexivity.
      * intros E. apply (to_N_inj c x69) in E. subst c. discriminate Hi.
      * intros E. apply (to_N_inj c x66) in E. subst c. discriminate Hf.
Qed.

End WireForm.

Lemma wire_tags_are_plain (items : list wire_item) :
  forallb wire_item_ok items = true ->
  forallb plain_byte (x2c :: map wire_tag items) = true.
Proof.
  intros H. cbn [forallb]. change (plain_byte x2c) with true. cbn [andb].
  induction items as [|it items IH]; [reflexivity|].
  cbn [forallb map] in *. apply andb_prop in H as [Hit Hok].
  rewrite (IH Hok), andb_true_r.
  destruct it as [? ? ? ?|? ? ? ?|c]; try reflexivity.
  cbn [wire_item_ok wire_tag] in *.
  apply andb_prop in Hit as [Hit _]. now apply andb_prop in Hit as [Hp _].
Qed.

(** X7.  A buffer laid out as an OSC message is decoded to what it holds.
    The address is plain text that begins with ['/'], NUL-terminated and
    padded; the type tag is a comma and one plain character per item,
    NUL-terminated and padded; the payload has four bytes per ['i'] and
    per ['f'], in order.  The decoder returns that address and, in order,
    the two's complement reading of each ['i'] word and the binary32
    reading of each ['f'] word; the other tag characters give nothing, and
    the bytes after the payload are not looked at.  Nothing is printed. *)
Theorem wire_message_is_decoded :
  forall (address : bytes) (items : list wire_item) (trailing : bytes),
    forallb plain_byte address = true ->
    hd_error address = Some x2f ->
    forallb wire_item_ok items = true ->
    parse_osc_message (osc_message_bytes address items trailing)
    = ([], Some (map Byte.to_N address, flat_map wire_argument items)).
Proof.
  intros address items trailing Hplain Hhd Hok.
  set (tag := x2c :: map wire_tag items).
  set (payload := flat_map wire_payload items).
  set (data := osc_message_bytes address items trailing).
  assert (H1 : parse_osc_string data 0
               = inr (Some (map Byte.to_N address),
                      List.length (osc_string address))).
  { exact (parse_osc_string_wire [] address _ Hplain). }
  assert (H2 : parse_osc_string data (List.length (osc_string address))
               = inr (Some (map Byte.to_N tag),
                      List.length (osc_string address)
                      + List.length (osc_string tag))).
  { exact (parse_osc_string_wire (osc_string address) tag
             (payload ++ trailing) (wire_tags_are_plain items Hok)). }
  assert (Hl : List.length (osc_string address) < len data).
  { unfold data, osc_message_bytes, len. rewrite !length_app.
    rewrite (osc_string_length (x2c :: _)). lia. }
  destruct address as [|a0 address]; [discriminate Hhd|].
  injection Hhd as ->.
  assert (Hnil : forall s : str, startswith s [] = true)
    by (now intros [|c s]).
  assert (Hs1 : startswith (map Byte.to_N (x2f :: address)) (lit "/") = true)
    by apply Hnil.
  assert (Hs2 : startswith (map Byte.to_N tag) (lit ",") = true)
    by apply Hnil.
  unfold parse_osc_message.
  rewrite (parse_osc_message_after_address data _ _ H1 eq_refl Hs1 Hl).
  rewrite H2. cbn [bind]. rewrite Hs2.
  change (falsy (Some (map Byte.to_N tag))) with false.
  cbn [negb orb]. cbn [tag map tl].
  pose proof (parse_args_wire trailing items
                (osc_string (x2f :: address) ++ osc_string tag) [] Hok) as Ha.
  rewrite length_app in Ha.
  replace ((osc_string (x2f :: address) ++ osc_string tag)
           ++ flat_map wire_payload items ++ trailing)
    with data in Ha
    by (unfold data, osc_message_bytes; now rewrite <- app_assoc).
  rewrite Ha. reflexivity.
Qed.

(** The address ["/midi/cc"] with the integers [1], [64], [100]. *)
Lemma wire_message_is_decoded_witness :
  parse_osc_message
    (osc_message_bytes (ascii_bytes "/midi/cc")
       [WireInt x00 x00 x00 x01; WireInt x00 x00 x00 x40;
        WireInt x00 x00 x00 x64] [])
  = ([], Some (lit "/midi/cc", [Int32 1; Int32 64; Int32 100])).
Proof.
  apply (wire_message_is_decoded (ascii_bytes "/midi/cc")
           [WireInt x00 x00 x00 x01; WireInt x00 x00 x00 x40;
            WireInt x00 x00 x00 x64] []); reflexivity.
Defined.

(* ================================================================== *)
(** * Further properties of the keystroke backend                      *)
(* ================================================================== *)

(** X8.  One received datagram makes the keystroke backend call the
    actuator at most once, and exactly once precisely when the datagram
    decodes to a message whose address begins with ["/transport/"], whose
    last segment is a key of [TRANSPORT_MAP], and whose value (the first
    argument, or [127] without arguments) is greater than zero. *)
Theorem keystroke_sent_only_for_transport_press :
  forall (run_ok : script -> bool) (data : bytes),
    actuator_calls (main_step run_ok data) <= 1 /\
    (actuator_calls (main_step run_ok data) = 1 <->
     exists address args key with_cmd,
       snd (parse_osc_message data) = Some (address, args) /\
       startswith address (lit "/transport/") = true /\
       dict_get TRANSPORT_MAP (last_segment address) = Some (key, with_cmd) /\
       greater_than_zero (hd (Int32 127) args) = true).
Proof.
  intros run_ok data. unfold main_step, parse_osc_message.
  destruct (parse_osc_message_body data) as [e|[[address args]|]];
    cbn [app snd].
  - split; [cbn; lia|]. split; [discriminate|].
    intros (? & ? & ? & ? & H & _). discriminate H.
  - destruct (falsy (Some address)) eqn:Ef.
    { split; [cbn; lia|]. split; [discriminate|].
      intros (? & ? & ? & ? & [= <- <-] & Hs & _).
      destruct address; [discriminate Hs | discriminate Ef]. }
    unfold dispatch.
    destruct (startswith address (lit "/transport/")) eqn:Es.
    + unfold handle_transport.
      change (match args with
              | v :: _ => v
              | [] => Int32 127
              end) with (hd (Int32 127) args).
      destruct (dict_get TRANSPORT_MAP (last_segment address))
        as [[key with_cmd]|] eqn:Ek.
      * destruct (greater_than_zero (hd (Int32 127) args)) eqn:Eg.
        -- assert (H1 : actuator_calls
                           (Printed (Pressed (last_segment address))
                            :: fst (send_keystroke run_ok key with_cmd)) = 1).
           { cbn [actuator_calls filter is_actuator_call].
             apply send_keystroke_calls_once. }
           rewrite H1. split; [lia|]. split; [|reflexivity].
           intros _. exists address, args, key, with_cmd. auto.
        -- split; [cbn; lia|]. split; [discriminate|].
           intros (? & ? & ? & ? & [= <- <-] & _ & _ & Hg). congruence.
      * split; [cbn; lia|]. split; [discriminate|].
        intros (? & ? & ? & ? & [= <- <-] & _ & Hk & _). congruence.
    + split; [cbn; lia|]. split; [discriminate|].
      intros (? & ? & ? & ? & [= <- <-] & Hs & _). congruence.
  - split; [cbn; lia|]. split; [discriminate|].
    intros (? & ? & ? & ? & H & _). discriminate H.
Qed.

Section Dictionaries.

Lemma str_eqb_eq (s t : str) : str_eqb s t = true <-> s = t.
Proof.
  revert t; induction s as [|c s IH]; intros [|d t]; cbn [str_eqb];
    try (split; [discriminate | discriminate]); [tauto|].
  rewrite andb_true_iff, N.eqb_eq, IH. split.
  - intros [-> ->]. reflexivity.
  - intros [= -> ->]. auto.
Qed.

Context {V : Type}.

Lemma dict_get_some (d : list (str * V)) (k : str) (v : V) :
  dict_get d k = Some v -> In (k, v) d.
Proof.
  induction d as [|[k' v'] d IH]; cbn [dict_get]; [discriminate|].
  destruct (str_eqb k k') eqn:E.
  - apply str_eqb_eq in E. subst k'. intros [= ->]. now left.
  - intros H. right. now apply IH.
Qed.

Lemma dict_get_none (d : list (str * V)) (k : str) :
  dict_get d k = None <-> ~ In k (map fst d).
Proof.
  induction d as [|[k' v'] d IH]; cbn [dict_get map fst In]; [tauto|].
  destruct (str_eqb k k') eqn:E.
  - apply str_eqb_eq in E. subst k'. split; [discriminate|].
    intros H. exfalso. apply H. now left.
  - rewrite IH. split.
    + intros H [Hk|Hin]; [|contradiction].
      subst k'. assert (str_eqb k k = true) by now apply str_eqb_eq.
      congruence.
    + tauto.
Qed.

End Dictionaries.

(** X9.  The two backends know the same actions: a name is a key of the
    keystroke table exactly when it is a key of the controller table.  The
    controllers of the table lie between [116] and [126], and no two
    actions share one. *)
Theorem transport_tables_agree :
  forall (action : str),
    (dict_get TRANSPORT_MAP action = None <->
     dict_get OscToMidi.transport_cc action = None) /\
    (forall cc : Z,
        dict_get OscToMidi.transport_cc action = Some cc ->
        (116 <= cc <= 126)%Z /\
        forall action',
          dict_get OscToMidi.transport_cc action' = Some cc ->
          action' = action).
Proof.
  intros action. split.
  - rewrite !dict_get_none. reflexivity.
  - intros cc H. apply dict_get_some in H. split.
    + cbn in H.
      repeat (destruct H as [[= <- <-]|H]; [lia|]). destruct H.
    + intros action' H'. apply dict_get_some in H'.
      cbn in H, H'.
      repeat (destruct H as [[= <- <-]|H];
              [repeat (destruct H' as [[= <-]|H']; try reflexivity;
                       try discriminate);
               try destruct H' |]).
      destruct H.
Qed.

(* ================================================================== *)
(** * Further properties of the MIDI backend                           *)
(* ================================================================== *)

(** X10.  An action that is not in the tables reaches no actuator: the
    keystroke backend prints its unknown-action line and nothing else,
    whatever the value; the MIDI backend leaves no event at all. *)
Theorem unknown_action_reaches_no_actuator :
  forall (run_ok : script -> bool) (midi_out : bool) (address : str)
         (value : OscArgument) (args : list OscArgument),
    dict_get TRANSPORT_MAP (last_segment address) = None ->
    handle_transport run_ok (last_segment address) value
    = [Printed (UnknownAction (last_segment address))] /\
    OscToMidi.trace (OscToMidi.handle_transport midi_out address args) = [].
Proof.
  intros run_ok midi_out address value args H. split.
  - unfold handle_transport. now rewrite H.
  - assert (H' : dict_get OscToMidi.transport_cc (last_segment address)
                 = None).
    { apply dict_get_none. apply dict_get_none in H. exact H. }
    unfold OscToMidi.handle_transport.
    destruct args as [|a0 rest]; [reflexivity|].
    destruct midi_out; [|reflexivity]. cbn [negb].
    destruct (OscToMidi.int_of_arg a0); [reflexivity|]. now rewrite H'.
Qed.

Lemma unknown_action_reaches_no_actuator_witness :
  handle_transport (fun _ => true) (last_segment (lit "/transport/eject"))
    (Int32 127)
  = [Printed (UnknownAction (last_segment (lit "/transport/eject")))] /\
  OscToMidi.trace
    (OscToMidi.handle_transport true (lit "/transport/eject") [Int32 127])
  = [].
Proof.
  apply (unknown_action_reaches_no_actuator (fun _ => true) true
           (lit "/transport/eject") (Int32 127) [Int32 127]).
  reflexivity.
Defined.

(** X11.  The three handlers of the MIDI backend keep the same
    discipline on every message: at most one control-change is sent, and
    only with the output open and at least one argument; what is sent has
    its channel within [0..15] and its controller and value within
    [0..127]; when an exception escapes, be it from a conversion or from
    the MIDI library, nothing was sent or printed; without an open output,
    or without arguments, the handler does nothing. *)
Theorem midi_handlers_keep_discipline :
  forall (int_of_str : str -> option Z) (midi_out : bool) (address : str)
         (args : list OscArgument),
    handler_discipline midi_out args
      (OscToMidi.handle_cc midi_out address args) /\
    handler_discipline midi_out args
      (OscToMidi.handle_transport midi_out address args) /\
    handler_discipline midi_out args
      (OscToMidi.handle_slider int_of_str midi_out address args).
Proof.
  intros int_of_str midi_out address args.
  assert (Hcase : forall o,
             (midi_out = false \/ args = [] -> o = OscToMidi.Outcome [] None) ->
             (o = OscToMidi.Outcome [] None \/
              (exists e, o = OscToMidi.Outcome [] (Some e)) \/
              (exists l, o = OscToMidi.Outcome [OscToMidi.Printed l] None) \/
              (midi_out = true /\ args <> [] /\
               exists c n v l,
                 (0 <= c <= 15)%Z /\ (0 <= n <= 127)%Z /\ (0 <= v <= 127)%Z /\
                 o = OscToMidi.Outcome
                       [OscToMidi.Send c n v; OscToMidi.Printed l] None)) ->
             handler_discipline midi_out args o).
  { intros o Hoff
      [-> | [[e ->] | [[l ->]
                      | (Hm & Ha & c & n & v & l & Hc & Hn' & Hv & ->)]]];
      unfold handler_discipline; cbn [OscToMidi.trace OscToMidi.raised];
      (split; [cbn; lia|]);
      (split; [|split; [|split; [|exact Hoff]]]).
    - discriminate.
    - intros ? ? ? [].
    - reflexivity.
    - discriminate.
    - intros ? ? ? [].
    - reflexivity.
    - discriminate.
    - intros ? ? ? [H|[]]. discriminate H.
    - congruence.
    - auto.
    - intros ? ? ? [[= <- <- <-]|[H|[]]]; [auto | discriminate H].
    - congruence. }
  split; [|split]; apply Hcase.
  - intros [-> | ->]; [|reflexivity].
    now destruct args as [|a0 [|a1 [|a2 rest]]].
  - unfold OscToMidi.handle_cc.
    destruct args as [|a0 [|a1 [|a2 rest]]]; auto.
    destruct midi_out; auto.
    destruct (OscToMidi.int_of_arg a0) as [e|c]; cbn [bind]; eauto.
    destruct (OscToMidi.int_of_arg a1) as [e|cc]; cbn [bind]; eauto.
    destruct (OscToMidi.int_of_arg a2) as [e|v]; cbn [bind]; eauto.
    destruct (OscToMidi.control_change (c - 1) cc v) as [e|msg] eqn:Em;
      cbn [bind ret]; eauto.
    apply control_change_returns in Em. destruct Em as (-> & Hc & Hn' & Hv).
    do 3 right. split; [reflexivity|]. split; [discriminate|].
    cbn [OscToMidi.midi_out_send]. eauto 10.
  - intros [-> | ->]; [|reflexivity]. now destruct args.
  - unfold OscToMidi.handle_transport.
    destruct args as [|a0 rest]; auto.
    destruct midi_out; auto. cbn [negb].
    destruct (OscToMidi.int_of_arg a0) as [e|v]; eauto.
    destruct (dict_get OscToMidi.transport_cc (last_segment address)); auto.
    destruct (OscToMidi.control_change 0 z v) as [e|msg] eqn:Em; eauto.
    apply control_change_returns in Em. destruct Em as (-> & Hc & Hn' & Hv).
    do 3 right. split; [reflexivity|]. split; [discriminate|].
    cbn [OscToMidi.midi_out_send]. eauto 10.
  - intros [-> | ->]; [|reflexivity]. now destruct args.
  - unfold OscToMidi.handle_slider, OscToMidi.slider_try.
    destruct args as [|a0 rest]; auto.
    destruct midi_out; auto. cbn [negb].
    destruct (OscToMidi.slider_values int_of_str address a0)
      as [[]|[slider_id value]]; cbn [bind]; eauto.
    destruct (OscToMidi.control_change 0 slider_id value) as [e|msg] eqn:Em;
      cbn [bind ret].
    + apply control_change_raises in Em. destruct Em as [-> _]. eauto.
    + apply control_change_returns in Em. destruct Em as (-> & Hc & Hn' & Hv).
      do 3 right. split; [reflexivity|]. split; [discriminate|].
      cbn [OscToMidi.midi_out_send]. eauto 10.
Qed.

Section SignedValues.

Local Open Scope Z_scope.

Lemma int_of_float_exact64_signed (f : float) (s : bool) (P E : Z) :
  exact64 f s P E ->
  int_of_float f = inr (cond_Zopp s (floor_scaled P E)).
Proof.
  intros (q & k & -> & Hk & Hq & _). cbn [int_of_float].
  unfold ret. f_equal. f_equal. rewrite Hq. now apply floor_scaled_shift.
Qed.

Lemma truncate_fraction (s : bool) (X : Z) (D : positive) :
  0 < X ->
  truncate (Qmake (cond_Zopp s X) D * inject_Z 127)
  = cond_Zopp s ((X * 127) / Zpos D).
Proof.
  intros HX. unfold truncate, Qle_bool, Qceiling, Qfloor, Qopp, Qmult, inject_Z.
  cbn [Qnum Qden]. rewrite Pos.mul_1_r.
  destruct s; cbn [cond_Zopp].
  - replace (0 * Zpos D <=? - X * 127 * 1) with false
      by (symmetry; apply Z.leb_gt; lia).
    f_equal. f_equal. lia.
  - replace (0 * Zpos D <=? X * 127 * 1) with true
      by (symmetry; apply Z.leb_le; lia).
    reflexivity.
Qed.

Lemma float_value_exact64_signed (f : float) (s : bool) (P E : Z) :
  exact64 f s P E ->
  exists v : Q,
    float_value f = Some v /\
    truncate (v * inject_Z 127) = cond_Zopp s (floor_scaled (P * 127) E).
Proof.
  intros (q & k & -> & Hk & Hq & _). cbn [float_value].
  eexists. split; [reflexivity|].
  rewrite <- (floor_scaled_shift (P * 127) k E Hk).
  replace (P * 127 * 2 ^ k) with (Zpos q * 127) by (rewrite Hq; ring).
  destruct (0 <=? E - k) eqn:H1; rewrite ?Z.leb_le, ?Z.leb_gt in *.
  - pose proof (Z.pow_pos_nonneg 2 (E - k) eq_refl H1) as Hpow.
    change (inject_Z (cond_Zopp s (Zpos q * 2 ^ (E - k))))
      with (Qmake (cond_Zopp s (Zpos q * 2 ^ (E - k))) 1).
    rewrite truncate_fraction by nia.
    rewrite Z.div_1_r. f_equal. ring.
  - rewrite truncate_fraction by lia.
    now rewrite Pos2Z.inj_pow, Z2Pos.id by lia.
Qed.

Lemma float_of_int_exact64 (p : positive) (s : bool) :
  Zpos p < 2 ^ 53 ->
  float_of_int (cond_Zopp s (Zpos p))
  = inr (binary_round prec64 emax64 s p 0) /\
  exact64 (binary_round prec64 emax64 s p 0) s (Zpos p) 0.
Proof.
  intros Hp.
  pose proof (binary_round_exact64 s p 0 Hp ltac:(lia)) as Hex.
  split; [|exact Hex].
  unfold float_of_int.
  replace (binary_normalize prec64 emax64 (cond_Zopp s (Zpos p)) 0 false)
    with (binary_round prec64 emax64 s p 0) by (now destruct s).
  now destruct Hex as (q & k & -> & _).
Qed.

End SignedValues.

(** X12.  The slider value is rounded toward zero and never clamped: for
    every finite binary32 argument of value [v], whatever its sign and
    size, the handler forms [v * 127] with its fraction cut off.  When that
    number and the slider id both lie within [0..127] it is sent, as it
    is, with the slider id as controller; otherwise nothing is sent, not
    even a clamped value: the MIDI library refuses the message inside the
    [try] and the handler prints its error line. *)
Theorem slider_value_is_truncated_never_clamped :
  forall (int_of_str : str -> option Z) (address : str) (w : Z)
         (rest : list OscArgument) (n : Z) (v : Q),
    int_of_str (last_segment address) = Some n ->
    float_value (float_of_bits32 w) = Some v ->
    OscToMidi.handle_slider int_of_str true address
      (Float32 (float_of_bits32 w) :: rest)
    = if OscToMidi.data_byte n
         && OscToMidi.data_byte (truncate (v * inject_Z 127))
      then OscToMidi.Outcome
             [OscToMidi.Send 0 n (truncate (v * inject_Z 127));
              OscToMidi.Printed
                (OscToMidi.SliderLine n (truncate (v * inject_Z 127)))]
             None
      else OscToMidi.Outcome
             [OscToMidi.Printed (OscToMidi.SliderError ValueError)] None.
Proof.
  intros int_of_str address w rest n v Hn Hv.
  apply handle_slider_outcome. rewrite (slider_values_float _ _ _ n Hn).
  destruct (float_of_bits32_cases w)
    as [Hnone | [[s Hz] | (s & P & E & Hex & HP & HE)]].
  - rewrite Hnone in Hv. discriminate.
  - rewrite Hz in *. cbn [float_value] in Hv. injection Hv as <-.
    destruct s; reflexivity.
  - destruct (float_value_exact64_signed _ _ _ _ Hex) as (v' & Hv' & Htr).
    rewrite Hv in Hv'. injection Hv' as <-.
    pose proof (float_mul_exact64 _ _ _ _ _ _ _ _ Hex float_127_exact64)
      as Hmul.
    assert (Hlt : (P * 127 < 2 ^ 53)%Z).
    { assert (2 ^ 24 * 127 < 2 ^ 53)%Z by reflexivity. lia. }
    specialize (Hmul Hlt ltac:(lia)).
    rewrite (int_of_float_exact64_signed _ _ _ _ Hmul), Z.add_0_r.
    rewrite xorb_false_r. cbn [bind ret]. now rewrite Htr.
Qed.

(** ["/slider/10"] with the float [-0.5] (bits [0xbf000000]): the value
    would be [-63]; nothing is sent and the error line is printed. *)
Lemma slider_value_is_truncated_never_clamped_witness :
  OscToMidi.handle_slider int_of_decimal true (lit "/slider/10")
    [Float32 (float_of_bits32 3204448256)]
  = OscToMidi.Outcome
      [OscToMidi.Printed (OscToMidi.SliderError ValueError)] None.
Proof.
  exact (slider_value_is_truncated_never_clamped int_of_decimal
           (lit "/slider/10") 3204448256 [] 10
           (Qmake (-4503599627370496) 9007199254740992) eq_refl eq_refl).
Defined.

(** ["/slider/10"] with the float [2.0] (bits [0x40000000]): the value
    would be [254]; it is not sent as [127], it is not sent at all. *)
Example slider_value_above_the_midi_range :
  OscToMidi.handle_slider int_of_decimal true (lit "/slider/10")
    [Float32 (float_of_bits32 1073741824)]
  = OscToMidi.Outcome
      [OscToMidi.Printed (OscToMidi.SliderError ValueError)] None.
Proof. reflexivity. Qed.

(** ["/slider/10"] with the float [-0.0009765625] (bits [0xba800000]):
    the product is cut off toward zero, and the value [0] is sent. *)
Example slider_small_negative_is_sent_as_zero :
  OscToMidi.handle_slider int_of_decimal true (lit "/slider/10")
    [Float32 (float_of_bits32 3128950784)]
  = OscToMidi.Outcome
      [OscToMidi.Send 0 10 0;
       OscToMidi.Printed (OscToMidi.SliderLine 10 0)]
      None.
Proof. reflexivity. Qed.

(** X13.  A slider argument that is no number: a NaN is caught by the
    handler and reported on its error line; an infinity makes [int] raise
    [OverflowError], which the handler does not catch, and nothing is sent
    or printed. *)
Theorem slider_nan_is_reported_infinity_escapes :
  forall (int_of_str : str -> option Z) (address : str) (w : Z)
         (rest : list OscArgument) (n : Z),
    int_of_str (last_segment address) = Some n ->
    ((w / 2 ^ 23) mod 256 = 255)%Z ->
    OscToMidi.handle_slider int_of_str true address
      (Float32 (float_of_bits32 w) :: rest)
    = if (w mod 2 ^ 23 =? 0)%Z
      then OscToMidi.Outcome [] (Some OverflowError)
      else OscToMidi.Outcome
             [OscToMidi.Printed (OscToMidi.SliderError ValueError)] None.
Proof.
  intros int_of_str address w rest n Hn Hw.
  unfold OscToMidi.handle_slider, OscToMidi.slider_try. cbn [negb].
  rewrite (slider_values_float _ _ _ n Hn).
  unfold float_of_bits32. rewrite Hw. cbn [Z.eqb].
  destruct (w mod 2 ^ 23 =? 0)%Z; reflexivity.
Qed.

Lemma slider_nan_is_reported_infinity_escapes_witness :
  OscToMidi.handle_slider int_of_decimal true (lit "/slider/10")
    [Float32 (float_of_bits32 2139095040)]
  = if (2139095040 mod 2 ^ 23 =? 0)%Z
    then OscToMidi.Outcome [] (Some OverflowError)
    else OscToMidi.Outcome
           [OscToMidi.Printed (OscToMidi.SliderError ValueError)] None.
Proof.
  apply (slider_nan_is_reported_infinity_escapes int_of_decimal
           (lit "/slider/10") 2139095040 [] 10); reflexivity.
Defined.

(** X14.  An integer slider argument [i] is scaled exactly, to [i * 127],
    so only the integers [0] and [1] give a MIDI value: [0] is sent for
    [0] and [127] for [1], with the slider id as controller when it lies
    within [0..127].  For every other integer the product is outside
    [0..127]: nothing is sent and the error line is printed. *)
Theorem slider_integer_argument_is_scaled :
  forall (int_of_str : str -> option Z) (address : str) (i : Z)
         (rest : list OscArgument) (n : Z),
    int_of_str (last_segment address) = Some n ->
    (Z.abs i < 2 ^ 46)%Z ->
    OscToMidi.handle_slider int_of_str true address (Int32 i :: rest)
    = if OscToMidi.data_byte n && ((i =? 0)%Z || (i =? 1)%Z)
      then OscToMidi.Outcome
             [OscToMidi.Send 0 n (i * 127);
              OscToMidi.Printed (OscToMidi.SliderLine n (i * 127))]
             None
      else OscToMidi.Outcome
             [OscToMidi.Printed (OscToMidi.SliderError ValueError)] None.
Proof.
  intros int_of_str address i rest n Hn Hi.
  assert (Hbyte : OscToMidi.data_byte (i * 127)
                  = ((i =? 0)%Z || (i =? 1)%Z)).
  { apply eq_true_iff_eq.
    rewrite data_byte_spec, orb_true_iff, !Z.eqb_eq. lia. }
  rewrite <- Hbyte. apply handle_slider_outcome.
  unfold OscToMidi.slider_values. rewrite Hn.
  cbn [bind ret OscToMidi.float_of_arg].
  destruct i as [|p|p].
  - reflexivity.
  - assert (Hp : (Zpos p < 2 ^ 53)%Z).
    { assert (2 ^ 46 < 2 ^ 53)%Z by reflexivity. lia. }
    destruct (float_of_int_exact64 p false Hp) as [Hf Hex].
    cbn [cond_Zopp] in Hf. rewrite Hf. cbn [bind].
    pose proof (float_mul_exact64 _ _ _ _ _ _ _ _ Hex float_127_exact64)
      as Hmul.
    assert (Hlt : (Zpos p * 127 < 2 ^ 53)%Z).
    { assert (2 ^ 46 * 127 < 2 ^ 53)%Z by reflexivity. lia. }
    specialize (Hmul Hlt ltac:(lia)).
    rewrite (int_of_float_exact64_signed _ _ _ _ Hmul).
    cbn [bind ret xorb cond_Zopp]. unfold floor_scaled. cbn [Z.add Z.leb Z.compare].
    now rewrite Z.pow_0_r, Z.mul_1_r.
  - assert (Hp : (Zpos p < 2 ^ 53)%Z).
    { assert (2 ^ 46 < 2 ^ 53)%Z by reflexivity. lia. }
    destruct (float_of_int_exact64 p true Hp) as [Hf Hex].
    cbn [cond_Zopp Z.opp] in Hf. rewrite Hf. cbn [bind].
    pose proof (float_mul_exact64 _ _ _ _ _ _ _ _ Hex float_127_exact64)
      as Hmul.
    assert (Hlt : (Zpos p * 127 < 2 ^ 53)%Z).
    { assert (2 ^ 46 * 127 < 2 ^ 53)%Z by reflexivity. lia. }
    specialize (Hmul Hlt ltac:(lia)).
    rewrite (int_of_float_exact64_signed _ _ _ _ Hmul).
    cbn [bind ret xorb cond_Zopp]. unfold floor_scaled. cbn [Z.add Z.leb Z.compare].
    rewrite Z.pow_0_r, Z.mul_1_r.
    replace (- (Zpos p * 127))%Z with (Zneg p * 127)%Z by lia. reflexivity.
Qed.

(** ["/slider/7"] with the integer [1]: controller [7], value [127]. *)
Lemma slider_integer_argument_is_scaled_witness :
  OscToMidi.handle_slider int_of_decimal true (lit "/slider/7") [Int32 1]
  = OscToMidi.Outcome
      [OscToMidi.Send 0 7 127;
       OscToMidi.Printed (OscToMidi.SliderLine 7 127)]
      None.
Proof.
  apply (slider_integer_argument_is_scaled int_of_decimal (lit "/slider/7")
           1 [] 7); reflexivity.
Defined.

(** ["/slider/7"] with the integer [2]: [254] is not a MIDI value, and
    nothing is sent. *)
Example slider_integer_two_is_refused :
  OscToMidi.handle_slider int_of_decimal true (lit "/slider/7") [Int32 2]
  = OscToMidi.Outcome
      [OscToMidi.Printed (OscToMidi.SliderError ValueError)] None.
Proof. reflexivity. Qed.

(* ================================================================== *)
(** * Properties of the choice of the MIDI output                      *)
(* ================================================================== *)

Section OutputChoice.

Import OscToMidiSetup.

Variable upper : str -> str.

Lemma first_iac_some (outputs : list str) (name : str) :
  first_iac upper outputs = Some name ->
  exists before after,
    outputs = before ++ name :: after /\
    forallb (fun b => negb (is_iac upper b)) before = true /\
    is_iac upper name = true.
Proof.
  induction outputs as [|o outputs IH]; cbn [first_iac]; [discriminate|].
  destruct (contains (upper o) (lit "IAC")) eqn:E.
  - intros [= <-]. now exists [], outputs.
  - intros H. destruct (IH H) as (before & after & -> & Hb & Hn).
    exists (o :: before), after. cbn [forallb app]. unfold is_iac at 1.
    rewrite E. auto.
Qed.

Lemma first_iac_none (outputs : list str) :
  first_iac upper outputs = None <->
  forallb (fun b => negb (is_iac upper b)) outputs = true.
Proof.
  induction outputs as [|o outputs IH]; cbn [first_iac forallb]; [tauto|].
  unfold is_iac at 1. destruct (contains (upper o) (lit "IAC")); cbn [negb andb].
  - split; discriminate.
  - exact IH.
Qed.

End OutputChoice.

(** X15.  [find_iac_driver] returns the first output whose upper-cased
    name contains ["IAC"]; when no name does, it returns the first output
    and prints the warning; it returns [None] exactly when there is no
    output at all.  What it returns is always one of the outputs. *)
Theorem find_iac_driver_prefers_iac :
  forall (upper : str -> str) (outputs : list str),
    (snd (OscToMidiSetup.find_iac_driver upper outputs) = None <->
     outputs = []) /\
    (forall name,
        snd (OscToMidiSetup.find_iac_driver upper outputs) = Some name ->
        In name outputs /\
        ((exists before after,
             outputs = before ++ name :: after /\
             forallb (fun b => negb (is_iac upper b)) before = true /\
             is_iac upper name = true /\
             fst (OscToMidiSetup.find_iac_driver upper outputs)
             = [OscToMidiSetup.AvailableOutputs outputs]) \/
         (forallb (fun b => negb (is_iac upper b)) outputs = true /\
          hd_error outputs = Some name /\
          fst (OscToMidiSetup.find_iac_driver upper outputs)
          = [OscToMidiSetup.AvailableOutputs outputs;
             OscToMidiSetup.IacNotFound name]))).
Proof.
  intros upper outputs. unfold OscToMidiSetup.find_iac_driver.
  destruct (OscToMidiSetup.first_iac upper outputs) as [chosen|] eqn:E.
  - destruct (first_iac_some upper _ _ E) as (before & after & Ho & Hb & Hn).
    cbn [snd fst]. split.
    + split; [discriminate|]. intros ->. discriminate E.
    + intros name [= <-]. split.
      * rewrite Ho. apply in_or_app. right. now left.
      * left. exists before, after. auto.
  - apply first_iac_none in E.
    destruct outputs as [|first rest]; cbn [snd fst].
    + split; [tauto|]. discriminate.
    + split; [split; discriminate|].
      intros name [= <-]. split; [now left|]. right. auto.
Qed.



(** X17.  [handle_cc] sends a control-change exactly when the output is
    open and the message has at least three arguments that convert to
    integers [c], [cc] and [v] with [c] within [1..16] and [cc] and [v]
    within [0..127]; it then sends [cc] and [v] as they are on channel
    [c - 1], the channel of the message being counted from one, and prints
    the channel as [c] again.  Arguments after the third are ignored.
    Three integers of which one is outside its range are refused by the
    MIDI library: its [ValueError] escapes from the handler and nothing is
    sent or printed. *)
Theorem handle_cc_sends_exactly_when :
  forall (midi_out : bool) (address : str) (args : list OscArgument),
    (OscToMidi.sends
       (OscToMidi.trace (OscToMidi.handle_cc midi_out address args)) = 1 <->
     midi_out = true /\
     exists a0 a1 a2 rest c cc v,
       args = a0 :: a1 :: a2 :: rest /\
       OscToMidi.int_of_arg a0 = inr c /\
       OscToMidi.int_of_arg a1 = inr cc /\
       OscToMidi.int_of_arg a2 = inr v /\
       (1 <= c <= 16)%Z /\ (0 <= cc <= 127)%Z /\ (0 <= v <= 127)%Z) /\
    (forall a0 a1 a2 rest c cc v,
        args = a0 :: a1 :: a2 :: rest ->
        OscToMidi.int_of_arg a0 = inr c ->
        OscToMidi.int_of_arg a1 = inr cc ->
        OscToMidi.int_of_arg a2 = inr v ->
        OscToMidi.handle_cc true address args
        = if OscToMidi.channel_ok (c - 1) && OscToMidi.data_byte cc
             && OscToMidi.data_byte v
          then OscToMidi.Outcome
                 [OscToMidi.Send (c - 1) cc v;
                  OscToMidi.Printed (OscToMidi.CCLine c cc v)]
                 None
          else OscToMidi.Outcome [] (Some ValueError)).
Proof.
  intros midi_out address args.
  assert (Hthree : forall a0 a1 a2 rest c cc v,
             args = a0 :: a1 :: a2 :: rest ->
             OscToMidi.int_of_arg a0 = inr c ->
             OscToMidi.int_of_arg a1 = inr cc ->
             OscToMidi.int_of_arg a2 = inr v ->
             OscToMidi.handle_cc true address args
             = if OscToMidi.channel_ok (c - 1) && OscToMidi.data_byte cc
                  && OscToMidi.data_byte v
               then OscToMidi.Outcome
                      [OscToMidi.Send (c - 1) cc v;
                       OscToMidi.Printed (OscToMidi.CCLine c cc v)]
                      None
               else OscToMidi.Outcome [] (Some ValueError)).
  { intros a0 a1 a2 rest c cc v -> E0 E1 E2.
    unfold OscToMidi.handle_cc, OscToMidi.control_change.
    rewrite E0, E1, E2. cbn [bind].
    destruct (OscToMidi.channel_ok (c - 1) && OscToMidi.data_byte cc
              && OscToMidi.data_byte v); [|reflexivity].
    cbn [bind ret OscToMidi.midi_out_send].
    now replace (c - 1 + 1)%Z with c by lia. }
  split; [|exact Hthree]. split.
  - unfold OscToMidi.handle_cc.
    destruct args as [|a0 [|a1 [|a2 rest]]]; try discriminate.
    destruct midi_out; [|discriminate].
    destruct (OscToMidi.int_of_arg a0) as [e|c] eqn:E0; cbn [bind];
      [discriminate|].
    destruct (OscToMidi.int_of_arg a1) as [e|cc] eqn:E1; cbn [bind];
      [discriminate|].
    destruct (OscToMidi.int_of_arg a2) as [e|v] eqn:E2; cbn [bind];
      [discriminate|].
    destruct (OscToMidi.control_change (c - 1) cc v) as [e|msg] eqn:Em;
      cbn [bind ret]; [discriminate|].
    apply control_change_returns in Em. destruct Em as (_ & Hc & Hcc & Hv).
    intros _. split; [reflexivity|].
    exists a0, a1, a2, rest, c, cc, v.
    split; [reflexivity|]. split; [exact E0|]. split; [exact E1|].
    split; [exact E2|]. split; [lia|]. split; assumption.
  - intros (-> & a0 & a1 & a2 & rest & c & cc & v
            & Ha & E0 & E1 & E2 & Hc & Hcc & Hv).
    rewrite (Hthree a0 a1 a2 rest c cc v Ha E0 E1 E2).
    assert (H1 : OscToMidi.channel_ok (c - 1) = true)
      by (apply channel_ok_spec; lia).
    apply data_byte_spec in Hcc, Hv. now rewrite H1, Hcc, Hv.
Qed.

(** ["/midi/cc"] with [(0, 64, 100)]: there is no channel [0] for the
    message, which counts channels from one; nothing is sent. *)
Example handle_cc_refuses_channel_zero :
  OscToMidi.handle_cc true (lit "/midi/cc") [Int32 0; Int32 64; Int32 100]
  = OscToMidi.Outcome [] (Some ValueError).
Proof. reflexivity. Qed.
